(** * qutebrowser.misc.fifo: receiving commands through a FIFO

    A shallow embedding of [qutebrowser/misc/fifo.py]: the reader
    [QtFIFOReader] built on a socket notifier, the module functions [init],
    [run_command] and [cleanup], and the parts of the Python runtime they
    rest on (text-mode file iteration over a non-blocking descriptor,
    the locale's codec under it, [str.rstrip], the [os] calls on the FIFO
    path, exceptions). *)

From Stdlib Require Import Ascii String List Arith Lia.
From stdpp Require Import base gmap strings list.
From Equations Require Import Equations.
Import ListNotations.

(* ===================================================================== *)
(** ** Python text: [str] values and text-mode reading                    *)
(* ===================================================================== *)

Module Text.

(** A Python [str] (after decoding) as the list of its characters. *)
Abbreviation str := (list ascii).

Definition CR : ascii := "013"%char.
Definition LF : ascii := "010"%char.

(** A literal without escapes; terminators are appended with [CR]/[LF]. *)
Definition lit (s : string) : str := list_ascii_of_string s.

(** The argument of [line.rstrip('\r\n')]. *)
Definition crlf : str := [CR; LF].

Definition char_in (c : ascii) (chars : str) : bool :=
  existsb (Ascii.eqb c) chars.

(** [s.rstrip(chars)]: the longest suffix made of characters of [chars]
    is removed. *)
Fixpoint rstrip (chars s : str) : str :=
  match s with
  | [] => []
  | c :: r =>
      match rstrip chars r with
      | [] => if char_in c chars then [] else [c]
      | r' => c :: r'
      end
  end.

(** [os.fdopen(fd, 'r')] gives a text file with [newline=None]: universal
    newlines with translation.  On input, "\r\n" and a lone "\r" both
    become "\n".  A "\r" that ends the available data is held back by the
    decoder and flushed as "\n" when the next read finds nothing. *)
Fixpoint universal_newlines (data : str) : str :=
  match data with
  | [] => []
  | c :: r =>
      if Ascii.eqb c CR then
        LF :: match r with
              | c' :: r' => if Ascii.eqb c' LF then universal_newlines r'
                            else universal_newlines r
              | [] => []
              end
      else c :: universal_newlines r
  end.

(** [readline()] on the decoded characters at hand: up to and including
    the first "\n"; when there is none, and the descriptor has nothing
    more to give (a non-blocking read that finds the pipe empty looks like
    end of file to the text layer), everything that is left. *)
Fixpoint readline (buf : str) : str * str :=
  match buf with
  | [] => ([], [])
  | c :: r =>
      if Ascii.eqb c LF then ([c], r)
      else let '(l, rest) := readline r in (c :: l, rest)
  end.

(** The iterator protocol of a text file: [__next__] is [readline()], and
    an empty result stops the iteration. *)
Equations? iter_lines (buf : str) : list str by wf (length buf) lt :=
  iter_lines [] := [];
  iter_lines (c :: r) :=
    fst (readline (c :: r)) :: iter_lines (snd (readline (c :: r))).
Proof.
  assert (forall b, length (snd (readline b)) <= length b) as Hrest.
  { induction b as [|a b IH]; simpl; [lia|].
    destruct (Ascii.eqb a LF); simpl; [lia|].
    destruct (readline b) as [l rest]; simpl in *; lia. }
  simpl. destruct (Ascii.eqb c LF); simpl; [lia|].
  specialize (Hrest r).
  destruct (readline r) as [l rest]; simpl in *; lia.
Qed.

(** The lines that [for line in f] sees when [data] is the decoded text
    of what the descriptor holds. *)
Definition file_lines (data : str) : list str :=
  iter_lines (universal_newlines data).

(** Bytes of 7-bit ASCII only.  A codec that a POSIX locale names is an
    extension of ASCII and decodes such bytes to the same characters,
    whatever it does with the others. *)
Definition is_seven_bit (data : str) : bool :=
  forallb (fun c => nat_of_ascii c <? 128) data.

End Text.

Import Text.

(* ===================================================================== *)
(** ** Exceptions and the state-and-exception monad                       *)
(* ===================================================================== *)

Module Py.

Inductive errno := ENOENT | EEXIST | EACCES | EISDIR.

(** The exceptions the module can meet.  [OSError] stands for the class
    and its subclasses ([FileNotFoundError], [FileExistsError],
    [PermissionError], [IsADirectoryError]), told apart by [errno]. *)
Inductive exn :=
| OSError (e : errno)
| ValueError
| UnicodeDecodeError
| AttributeError
| UnboundLocalError
| NoTargetError.

Definition is_OSError (e : exn) : bool :=
  match e with OSError _ => true | _ => false end.

Inductive outcome (A : Type) :=
| Return (a : A)
| Raise (e : exn).
Arguments Return {A} a.
Arguments Raise {A} e.

Section Monad.
Context {S : Type}.

(** A computation over the state [S] that returns or raises; the state
    reached when it raises is kept, as in Python. *)
Definition M (A : Type) : Type := S -> outcome A * S.

Definition ret {A} (a : A) : M A := fun s => (Return a, s).

Definition bind {A B} (m : M A) (k : A -> M B) : M B :=
  fun s => match m s with
           | (Return a, s') => k a s'
           | (Raise e, s') => (Raise e, s')
           end.

Definition raise {A} (e : exn) : M A := fun s => (Raise e, s).
Definition get : M S := fun s => (Return s, s).
Definition modify (f : S -> S) : M unit := fun s => (Return tt, f s).

(** [try: body / except OSError as e: handler(e)] *)
Definition try_except_OSError {A} (body : M A) (handler : exn -> M A) : M A :=
  fun s => match body s with
           | (Raise e, s') =>
               if is_OSError e then handler e s' else (Raise e, s')
           | r => r
           end.

(** [for x in xs: body(x)] over an already materialised sequence. *)
Fixpoint for_each {A} (xs : list A) (body : A -> M unit) : M unit :=
  match xs with
  | [] => ret tt
  | x :: xs' => bind (body x) (fun _ => for_each xs' body)
  end.
End Monad.

Arguments M S A : clear implicits.

End Py.

Import Py.

(** The monad is used through stdpp's notations [x ← m; k] and [m ;; k]. *)
#[global] Instance M_ret {S} : MRet (M S) := fun A a => ret a.
#[global] Instance M_bind {S} : MBind (M S) := fun A B k m => bind m k.

(* ===================================================================== *)
(** ** The world the module runs in                                       *)
(* ===================================================================== *)

(** An entry of the file system.  A FIFO or a regular file has an inode
    number under which its unread bytes are kept, so that a descriptor
    opened on it goes on reading it after the path is removed. *)
Inductive node :=
| Fifo (ino : nat)
| Regular (ino : nat)
| Directory.

(** What the [os] module sees. *)
Record os_state := {
  os_name : string;              (* os.name *)
  fs : gmap string node;         (* path -> entry *)
  dir_writable : bool;           (* may entries be created and removed? *)
  pipes : gmap nat str;          (* inode -> bytes written and not yet read *)
  next_ino : nat;                (* the next free inode number *)
  codec : nat -> str -> list str * bool * nat
                                 (* the text codec of the locale, see
                                    [text_lines] *)
}.

(** An execution target: a main window, known to this module only through
    its [win_id]. *)
Record window := { win_id : nat }.

(** The three windows the registry answers with while some window exists. *)
Record targets := {
  focused : window;
  opened : window;
  visible : window
}.

(** Modelled from the spec: [qutebrowser.utils.objreg] is not part of the
    sources at hand.  Its three lookups are described as "three lookup
    operations ([last_focused()], [last_opened()], [last_visible()]) each
    returning an [ExecutionTarget] or failing if none exists": [None] is
    the registry without any window, [Some t] one where each lookup has
    its answer. *)
Definition registry := option targets.

(** The inputs the module reads from the rest of the application. *)
Record app_env := {
  runtime : string;              (* standarddir.runtime() *)
  win_mode : string;             (* config.get('general',
                                      'new-instance-open-target.window') *)
  objreg : registry
}.

(** [os.fdopen(fd, 'r')]: the text file object over descriptor [fileno],
    with the state of its decoder: 0 for a decoder that holds nothing, as
    a fresh one does, any other number for a state that the locale's
    codec has put it in. *)
Record TextIOWrapper := {
  fileno : nat;
  closed : bool;
  decoder : nat
}.

(** [QSocketNotifier(fd, QSocketNotifier.Read, parent)]. *)
Record QSocketNotifier := {
  socket : nat;
  isEnabled : bool
}.

(** The callables connected to [got_line] by [init]. *)
Inductive slot :=
| log_debug       (* lambda cmd: log.commands.debug("Got FIFO command: ...") *)
| run_command_slot.

Record QtFIFOReader := {
  _filepath : string;
  _fifo : TextIOWrapper;
  _notifier : QSocketNotifier;
  got_line : list slot           (* connections of the signal, in order *)
}.

(** [message.error('current', text)], by the format string used. *)
Inductive notice :=
| CouldntRemove (filepath : string) (e : exn)
| CouldntCreate (e : exn).

(** What the module does to the rest of the application. *)
Record effects := {
  errors : list notice;          (* message.error calls *)
  debug_log : list str;          (* log.commands.debug calls *)
  commands_run : list (nat * str);
                                 (* CommandRunner(win_id).run_safely(cmd) *)
  unhandled : list exn           (* exceptions that left a slot *)
}.

Record world := {
  os : os_state;
  env : app_env;
  reader : option QtFIFOReader;  (* the module global [reader] *)
  out : effects
}.

Definition set_os (f : os_state -> os_state) (w : world) : world :=
  {| os := f (os w); env := env w; reader := reader w; out := out w |}.
Definition set_reader (r : option QtFIFOReader) (w : world) : world :=
  {| os := os w; env := env w; reader := r; out := out w |}.
Definition set_out (f : effects -> effects) (w : world) : world :=
  {| os := os w; env := env w; reader := reader w; out := f (out w) |}.

Definition set_fs (f : gmap string node -> gmap string node) (o : os_state)
  : os_state :=
  {| os_name := os_name o; fs := f (fs o); dir_writable := dir_writable o;
     pipes := pipes o; next_ino := next_ino o; codec := codec o |}.
Definition set_pipes (f : gmap nat str -> gmap nat str) (o : os_state)
  : os_state :=
  {| os_name := os_name o; fs := fs o; dir_writable := dir_writable o;
     pipes := f (pipes o); next_ino := next_ino o; codec := codec o |}.
Definition alloc_ino (o : os_state) : os_state :=
  {| os_name := os_name o; fs := fs o; dir_writable := dir_writable o;
     pipes := pipes o; next_ino := S (next_ino o); codec := codec o |}.

Definition add_error (n : notice) (e : effects) : effects :=
  {| errors := errors e ++ [n]; debug_log := debug_log e;
     commands_run := commands_run e; unhandled := unhandled e |}.
Definition add_debug (l : str) (e : effects) : effects :=
  {| errors := errors e; debug_log := debug_log e ++ [l];
     commands_run := commands_run e; unhandled := unhandled e |}.
Definition add_run (id : nat) (cmd : str) (e : effects) : effects :=
  {| errors := errors e; debug_log := debug_log e;
     commands_run := commands_run e ++ [(id, cmd)]; unhandled := unhandled e |}.
Definition add_unhandled (x : exn) (e : effects) : effects :=
  {| errors := errors e; debug_log := debug_log e;
     commands_run := commands_run e; unhandled := unhandled e ++ [x] |}.

(* ===================================================================== *)
(** ** The [os] calls the module makes                                    *)
(* ===================================================================== *)

Module Os.

Definition is_posix (w : world) : bool := String.eqb (os_name (os w)) "posix".

(** [os.path.join(a, b)] for a relative [b]. *)
Definition path_join (a b : string) : string :=
  match a with
  | EmptyString => b
  | _ => if String.eqb (substring (String.length a - 1) 1 a) "/"
         then a +:+ b else a +:+ "/" +:+ b
  end.

(** [os.path.exists(path)] *)
Definition path_exists (path : string) : M world bool :=
  fun w => (Return (bool_decide (is_Some (fs (os w) !! path))), w).

(** [os.remove(path)]: fails on a missing path, in a directory that may
    not be written, and on a directory. *)
Definition remove (path : string) : M world unit :=
  fun w =>
    match fs (os w) !! path with
    | None => (Raise (OSError ENOENT), w)
    | Some n =>
        if negb (dir_writable (os w)) then (Raise (OSError EACCES), w)
        else match n with
             | Directory => (Raise (OSError EISDIR), w)
             | _ => (Return tt, set_os (set_fs (delete path)) w)
             end
    end.

(** [os.mkfifo(path)]: the function exists on POSIX only; it fails on an
    existing path and in a directory that may not be written. *)
Definition mkfifo (path : string) : M world unit :=
  fun w =>
    if negb (is_posix w) then (Raise AttributeError, w)
    else match fs (os w) !! path with
         | Some _ => (Raise (OSError EEXIST), w)
         | None =>
             if negb (dir_writable (os w)) then (Raise (OSError EACCES), w)
             else
               let i := next_ino (os w) in
               (Return tt,
                set_os (fun o => alloc_ino
                          (set_pipes (insert i [])
                             (set_fs (insert path (Fifo i)) o))) w)
         end.

(** [os.open(path, os.O_RDWR | os.O_NONBLOCK)]: [os.O_NONBLOCK] exists on
    POSIX only; without [O_CREAT] a missing path is an error, and a
    directory cannot be opened for writing.  The descriptor is
    identified with the inode it reads. *)
Definition open_rdwr_nonblock (path : string) : M world nat :=
  fun w =>
    if negb (is_posix w) then (Raise AttributeError, w)
    else match fs (os w) !! path with
         | None => (Raise (OSError ENOENT), w)
         | Some Directory => (Raise (OSError EISDIR), w)
         | Some (Fifo i) | Some (Regular i) => (Return i, w)
         end.

(** One non-blocking read of everything the descriptor holds. *)
Definition read_available (fd : nat) : M world str :=
  fun w =>
    match pipes (os w) !! fd with
    | Some data => (Return data, set_os (set_pipes (insert fd [])) w)
    | None => (Return [], w)
    end.

End Os.

(* ===================================================================== *)
(** ** qutebrowser/misc/fifo.py                                           *)
(* ===================================================================== *)

(** Access to the object behind the module global [reader]; an attribute
    access on [None] raises [AttributeError]. *)
Definition the_reader : M world QtFIFOReader :=
  fun w => match reader w with
           | Some r => (Return r, w)
           | None => (Raise AttributeError, w)
           end.

Definition update_reader (f : QtFIFOReader -> QtFIFOReader) : M world unit :=
  modify (fun w => set_reader (f <$> reader w) w).

(** [self._notifier.setEnabled(b)] *)
Definition setEnabled (b : bool) (r : QtFIFOReader) : QtFIFOReader :=
  {| _filepath := _filepath r; _fifo := _fifo r;
     _notifier := {| socket := socket (_notifier r); isEnabled := b |};
     got_line := got_line r |}.

(** [self._fifo.close()]; closing a closed file changes nothing. *)
Definition close (r : QtFIFOReader) : QtFIFOReader :=
  {| _filepath := _filepath r;
     _fifo := {| fileno := fileno (_fifo r); closed := true;
                 decoder := decoder (_fifo r) |};
     _notifier := _notifier r; got_line := got_line r |}.

(** [reader.got_line.connect(s)] *)
Definition connect (s : slot) (r : QtFIFOReader) : QtFIFOReader :=
  {| _filepath := _filepath r; _fifo := _fifo r; _notifier := _notifier r;
     got_line := got_line r ++ [s] |}.

(** [message.error('current', ...)] *)
Definition message_error (n : notice) : M world unit :=
  modify (set_out (add_error n)).

(** Modelled from the spec: the registry lookups
    [objreg.last_focused_window()], [objreg.last_window()] and
    [objreg.last_visible_window()] are not part of the sources at hand;
    each is "returning an [ExecutionTarget] or failing if none exists",
    the failure being the spec's [NoTargetError]. *)
Definition lookup_window (pick : targets -> window) : M world window :=
  fun w => match objreg (env w) with
           | Some t => (Return (pick t), w)
           | None => (Raise NoTargetError, w)
           end.

(** Modelled from the spec: [runners.CommandRunner(win_id).run_safely(cmd)]
    is not part of the sources at hand; it is the execution capability,
    "one operation accepting [(ExecutionTarget, CommandLine)]" whose
    failures "are that capability's concern".  The call is recorded. *)
Definition run_safely (id : nat) (cmd : str) : M world unit :=
  modify (set_out (add_run id cmd)).

(** [run_command(cmd)]: run a FIFO command in the right window.  The local
    [window] is bound by one of three branches; with no branch taken it is
    still unbound when [window.win_id] is evaluated. *)
Definition run_command (cmd : str) : M world unit :=
  w ← get;
  let win_mode := win_mode (env w) in
  window ← (if String.eqb win_mode "last-focused" then
              win ← lookup_window focused; mret (Some win)
            else if String.eqb win_mode "last-opened" then
              win ← lookup_window opened; mret (Some win)
            else if String.eqb win_mode "last-visible" then
              win ← lookup_window visible; mret (Some win)
            else mret None);
  match window with
  | Some win => run_safely (win_id win) cmd
  | None => raise UnboundLocalError
  end.

(** A call of a connected slot from [emit].  An exception that leaves a
    slot called by Qt does not travel back into the emitter: it is handed
    to the exception hook, kept here in [unhandled].  That the emitter
    then goes on supposes an exception hook installed by the application,
    as qutebrowser installs one; under the default hook a recent PyQt
    ends the process instead. *)
Definition call_slot (s : slot) (line : str) : M world unit :=
  fun w =>
    let body := match s with
                | log_debug => modify (set_out (add_debug line))
                | run_command_slot => run_command line
                end in
    match body w with
    | (Return _, w') => (Return tt, w')
    | (Raise e, w') => (Return tt, set_out (add_unhandled e) w')
    end.

(** [self.got_line.emit(line)]: the connected slots, in connection order. *)
Definition emit (line : str) : M world unit :=
  r ← the_reader;
  for_each (got_line r) (fun s => call_slot s line).

(** The decoder of the text file keeps its state in [decoder]. *)
Definition set_decoder (st : nat) (r : QtFIFOReader) : QtFIFOReader :=
  {| _filepath := _filepath r;
     _fifo := {| fileno := fileno (_fifo r); closed := closed (_fifo r);
                 decoder := st |};
     _notifier := _notifier r; got_line := got_line r |}.

(** What the text layer makes of the bytes [data] with its decoder in
    state [st]: the lines the iteration yields, whether it then ends in
    [UnicodeDecodeError], and the state the decoder is left in.  With a
    decoder that holds nothing, 7-bit bytes are their own text, split by
    [file_lines], and the decoder holds nothing afterwards.  Everything
    else is the codec's affair (which bytes are invalid, which are cut
    short and held back, what a decoder that has failed does next) and is
    taken from the locale as it is. *)
Definition text_lines (w : world) (st : nat) (data : str)
  : list str * bool * nat :=
  if (st =? 0) && is_seven_bit data then (file_lines data, false, 0)
  else codec (os w) st data.

(** The iteration of [for line in self._fifo], as the lines it yields and
    whether it ends in [UnicodeDecodeError] after them.  Iterating a
    closed file raises [ValueError]; an open one reads what the
    descriptor holds and decodes and splits it with [text_lines]. *)
Definition iter_fifo : M world (list str * bool) :=
  r ← the_reader;
  if closed (_fifo r) then raise ValueError
  else
    data ← Os.read_available (fileno (_fifo r));
    w ← get;
    let '(lines, failed, st) := text_lines w (decoder (_fifo r)) data in
    update_reader (set_decoder st);;
    mret (lines, failed).

(** The loop [for line in self._fifo: self.got_line.emit(line.rstrip('\r\n'))]
    of [read_line] and [cleanup]: the lines are emitted as they come, and
    an error of the decoder leaves the loop after them. *)
Definition emit_lines : M world unit :=
  it ← iter_fifo;
  for_each (fst it) (fun line => emit (rstrip crlf line));;
  if snd (it : list str * bool) then raise UnicodeDecodeError else ret tt.

(** [QtFIFOReader.__init__(filepath)] *)
Definition QtFIFOReader_init (filepath : string) : M world QtFIFOReader :=
  fd ← Os.open_rdwr_nonblock filepath;
  mret {| _filepath := filepath;
          _fifo := {| fileno := fd; closed := false; decoder := 0 |};
          _notifier := {| socket := fd; isEnabled := true |};
          got_line := [] |}.

(** [QtFIFOReader.read_line()], the slot of the notifier's [activated]. *)
Definition read_line : M world unit :=
  update_reader (setEnabled false);;
  emit_lines;;
  update_reader (setEnabled true).

(** [QtFIFOReader.cleanup()] *)
Definition reader_cleanup : M world unit :=
  update_reader (setEnabled false);;
  emit_lines;;
  update_reader close.

(** [tempfile.mktemp(prefix=prefix, dir=dir)]: the path of the first
    candidate name under which nothing exists.  The candidates are the
    random names the call would draw, handed in by the caller in drawing
    order; with none left the call raises [FileExistsError]. *)
Fixpoint tempfile_mktemp (names : list string) (prefix dir : string)
  : M world string :=
  match names with
  | [] => raise (OSError EEXIST)
  | name :: names' =>
      let file := Os.path_join dir (prefix +:+ name) in
      exists_ ← Os.path_exists file;
      if (exists_ : bool) then tempfile_mktemp names' prefix dir
      else mret file
  end.

(** [make_temp_fifo()]: make a temporary FIFO for a userscript. *)
Definition make_temp_fifo (names : list string) : M world string :=
  w ← get;
  filepath ← tempfile_mktemp names "qutebrowser-userscript-"
               (runtime (env w));
  Os.mkfifo filepath;;
  mret filepath.

Definition fifo_path (w : world) : string :=
  Os.path_join (runtime (env w)) "fifo".

(** [init()]: initialize the standard FIFO. *)
Definition init : M world unit :=
  w ← get;
  let filepath := fifo_path w in
  exists_ ← Os.path_exists filepath;
  (if (exists_ : bool) then
     try_except_OSError (Os.remove filepath)
       (fun e => message_error (CouldntRemove filepath e))
   else mret tt);;
  try_except_OSError (Os.mkfifo filepath)
    (fun e => message_error (CouldntCreate e));;
  r ← QtFIFOReader_init filepath;
  modify (set_reader (Some r));;
  update_reader (connect log_debug);;
  update_reader (connect run_command_slot).

(** The last statement of [cleanup()]:
    [try: os.remove(filepath) / except OSError as e: pass]. *)
Definition remove_quietly (filepath : string) : M world unit :=
  try_except_OSError (Os.remove filepath) (fun e => mret tt).

(** [cleanup()]: clean up the standard FIFO when it is no longer needed. *)
Definition cleanup : M world unit :=
  w ← get;
  if negb (Os.is_posix w) then mret tt
  else
    let filepath := fifo_path w in
    _ ← the_reader;
    reader_cleanup;;
    remove_quietly filepath.

(* ===================================================================== *)
(** ** The environment: writers and the event loop                        *)
(* ===================================================================== *)

(** Another process writes [data] to the pipe at [path] in one [write]. *)
Definition write (path : string) (data : str) (w : world) : world :=
  match fs (os w) !! path with
  | Some (Fifo i) | Some (Regular i) =>
      set_os (set_pipes (insert i (default [] (pipes (os w) !! i) ++ data))) w
  | _ => w
  end.

(** The event loop finds the descriptor readable: an enabled notifier
    fires [activated], which is connected to [read_line].  An exception
    that leaves [read_line] goes the way of one that leaves a slot of
    [got_line] (see [call_slot]). *)
Definition activated : M world unit :=
  fun w => match reader w with
           | Some r =>
               if isEnabled (_notifier r) then
                 match read_line w with
                 | (Return _, w') => (Return tt, w')
                 | (Raise e, w') => (Return tt, set_out (add_unhandled e) w')
                 end
               else (Return tt, w)
           | None => (Return tt, w)
           end.

(** What the environment can do between two steps of the module. *)
Inductive action :=
| Written (data : str) (* a writer writes to the standard FIFO *)
| Readable.            (* the event loop delivers a readiness event *)

Definition step (a : action) (w : world) : world :=
  match a with
  | Written data => write (fifo_path w) data w
  | Readable => snd (activated w)
  end.

Definition run (acts : list action) (w : world) : world :=
  fold_left (fun w a => step a w) acts w.

(* ===================================================================== *)
(** ** Notions used in the statements                                     *)
(* ===================================================================== *)

(** The [CommandLine] events of one drain of [data]: each line of the
    iteration, stripped. *)
Definition events (data : str) : list str :=
  map (rstrip crlf) (file_lines data).

(** The window [run_command] settles on, as a function of what it reads. *)
Definition resolve_target (e : app_env) : outcome nat :=
  let pick sel := match objreg e with
                  | Some t => Return (win_id (sel t))
                  | None => Raise NoTargetError
                  end in
  if String.eqb (win_mode e) "last-focused" then pick focused
  else if String.eqb (win_mode e) "last-opened" then pick opened
  else if String.eqb (win_mode e) "last-visible" then pick visible
  else Raise UnboundLocalError.

(** What one emitted line leaves behind when the signal is wired as [init]
    wires it: a debug line, then a command run or an exception for the
    hook. *)
Definition deliver1 (e : app_env) (o : effects) (line : str) : effects :=
  match resolve_target e with
  | Return id => add_run id line (add_debug line o)
  | Raise x => add_unhandled x (add_debug line o)
  end.

Definition deliver (e : app_env) (lines : list str) (o : effects) : effects :=
  fold_left (deliver1 e) lines o.

(** The channel as [init] leaves it: the global reader open on inode [i]
    with its notifier enabled and both slots connected, a decoder that
    holds nothing, and the standard path naming that FIFO. *)
Record attached (w : world) (i : nat) : Prop := {
  att_reader : exists r, reader w = Some r
                         /\ fileno (_fifo r) = i
                         /\ closed (_fifo r) = false
                         /\ isEnabled (_notifier r) = true
                         /\ got_line r = [log_debug; run_command_slot]
                         /\ decoder (_fifo r) = 0;
  att_path : fs (os w) !! fifo_path w = Some (Fifo i)
}.

(** The world after a drain of [data] by reader [r'], wired as by [init]. *)
Definition drained (w : world) (r' : QtFIFOReader) (data : str) : world :=
  {| os := set_pipes (insert (fileno (_fifo r')) []) (os w);
     env := env w;
     reader := Some r';
     out := deliver (env w) (events data) (out w) |}.

(** The channel at work: attached to inode [i], with [data] written and
    not yet read, the inputs [e] and the effects [o] so far. *)
Record chan (w : world) (i : nat) (data : str) (e : app_env) (o : effects)
  : Prop := {
  chan_attached : attached w i;
  chan_data : pipes (os w) !! i = Some data;
  chan_env : env w = e;
  chan_out : out w = o
}.

(** The path [make_temp_fifo] tries for the candidate [name]. *)
Definition temp_path (w : world) (name : string) : string :=
  Os.path_join (runtime (env w)) ("qutebrowser-userscript-" +:+ name).

(** A computation keeps the relation [R] between the world it starts in
    and the world it ends in, however it ends. *)
Definition stable {A} (R : relation world) (m : M world A) : Prop :=
  forall w, R w (snd (m w)).

(** Nothing changed at [path]. *)
Definition same_at (path : string) : relation world :=
  fun w w' => fs (os w') !! path = fs (os w) !! path.

(** [data] is 7-bit ASCII, which every locale decodes to itself. *)
Definition seven_bit (data : str) : Prop := is_seven_bit data = true.

(** A character of a line terminator. *)
Definition eol (c : ascii) : Prop := c = CR \/ c = LF.

(** Text without any terminator character. *)
Definition plain (s : str) : Prop := Forall (fun c => ~ eol c) s.

(** The bytes of [k] complete lines: each a plain text and a newline. *)
Definition terminated (ls : list str) : str :=
  concat (map (fun l => l ++ [LF]) ls).


(** The recognized values of the target-selection setting. *)
Definition recognized (mode : string) : Prop :=
  mode = "last-focused"%string \/ mode = "last-opened"%string
  \/ mode = "last-visible"%string.

(** A world for examples: POSIX, an empty and writable runtime directory,
    the ASCII codec of the C locale (a byte outside ASCII is an error at
    once), windows 7, 8 and 9 last focused, opened and visible. *)
Definition w_start : world :=
  {| os := {| os_name := "posix"; fs := ∅; dir_writable := true;
              pipes := ∅; next_ino := 0;
              codec := fun _ _ => ([], true, 0) |};
     env := {| runtime := "/run/user/1000/qutebrowser";
               win_mode := "last-focused";
               objreg := Some {| focused := {| win_id := 7 |};
                                 opened := {| win_id := 8 |};
                                 visible := {| win_id := 9 |} |} |};
     reader := None;
     out := {| errors := []; debug_log := []; commands_run := [];
               unhandled := [] |} |}.

(** [w_start] after [init()]. *)
Definition w_active : world := snd (init w_start).

Definition with_env (e : app_env) (w : world) : world :=
  {| os := os w; env := e; reader := reader w; out := out w |}.

(** The same world with no window registered. *)
Definition no_window (w : world) : world :=
  with_env {| runtime := runtime (env w); win_mode := win_mode (env w);
              objreg := None |} w.

(** The same world with another value of the target-selection setting. *)
Definition with_mode (mode : string) (w : world) : world :=
  with_env {| runtime := runtime (env w); win_mode := mode;
              objreg := objreg (env w) |} w.

(** [w_start] with a runtime directory that may not be written. *)
Definition w_readonly : world :=
  set_os (fun o => {| os_name := os_name o; fs := fs o; dir_writable := false;
                      pipes := pipes o; next_ino := next_ino o;
                      codec := codec o |}) w_start.

(** A platform without named pipes, with a regular file left at the
    standard path. *)
Definition w_nt : world :=
  set_os (fun o => {| os_name := "nt";
                      fs := {[ fifo_path w_start := Regular 0 ]};
                      dir_writable := true;
                      pipes := {[ 0 := [] ]}; next_ino := 1;
                      codec := codec o |}) w_start.

(** [w_active] with a setting that names no kind of window. *)
Definition w_odd_mode : world := with_mode "first-opened" w_active.

(** [w_active] after "reload\n" and the first bytes of a next line were
    written. *)
Definition w_partial : world :=
  run [Written (lit "reload" ++ [LF] ++ lit "scr")] w_active.

(** [w_active] after "reload\n" and a byte that is not ASCII were
    written. *)
Definition w_undecodable : world :=
  run [Written (lit "reload" ++ [LF] ++ ["255"%char])] w_active.


(** [w_active] after [cleanup()]. *)
Definition w_closed : world := snd (cleanup w_active).

(** [w_active] in a runtime directory that has become read-only. *)
Definition w_locked : world :=
  set_os (fun o => {| os_name := os_name o; fs := fs o; dir_writable := false;
                      pipes := pipes o; next_ino := next_ino o;
                      codec := codec o |}) w_active.

(** Shutting down twice is safe, at a world [w]: a second
    [cleanup()] after one that returned returns too, changing nothing. *)
Definition second_cleanup_safe (w : world) : Prop :=
  forall w1, cleanup w = (Return tt, w1) -> cleanup w1 = (Return tt, w1).

(** A dispatch is dropped with a notification, at a world [w] and a
    command [cmd]: nothing is run and the user is told through
    [message.error]. *)
Definition dropped_with_notification (w : world) (cmd : str) : Prop :=
  let w' := snd (run_command cmd w) in
  commands_run (out w') = commands_run (out w)
  /\ errors (out w') <> errors (out w).

(** A partial line is held back, at a pipe content made of the complete
    lines [ls] and the partial line [p]: a drain emits the [ls] and
    nothing else. *)
Definition partial_line_kept (ls : list str) (p : str) : Prop :=
  events (terminated ls ++ p) = ls.

(** A start in degraded mode, at a world [w]: [init()] returns, and
    leaves no reader attached. *)
Definition degraded_start (w : world) : Prop :=
  exists w', init w = (Return tt, w') /\ reader w' = None.

(** An operation [m] is a no-op at [w]: it returns and changes nothing. *)
Definition no_op (m : M world unit) (w : world) : Prop :=
  m w = (Return tt, w).

(* ===================================================================== *)
(** ** Text: stripping and line splitting                                 *)
(* ===================================================================== *)

Section TextFacts.

Lemma char_in_crlf c : char_in c crlf = true <-> eol c.
Proof.
  unfold char_in, crlf, eol; simpl.
  rewrite !orb_true_iff, !Ascii.eqb_eq. intuition discriminate.
Qed.

Lemma char_in_crlf_false c : char_in c crlf = false <-> ~ eol c.
Proof.
  rewrite <- char_in_crlf. destruct (char_in c crlf); intuition congruence.
Qed.

Lemma eqb_LF_plain c : ~ eol c -> Ascii.eqb c LF = false.
Proof. intros H. apply Ascii.eqb_neq. intros ->. apply H. now right. Qed.

Lemma eqb_CR_plain c : ~ eol c -> Ascii.eqb c CR = false.
Proof. intros H. apply Ascii.eqb_neq. intros ->. apply H. now left. Qed.




(** Text that does not end in a terminator is left alone. *)
Lemma rstrip_plain s : plain s -> rstrip crlf s = s.
Proof.
  induction 1 as [|c r Hc _ IH]; [reflexivity|].
  cbn [app rstrip]. rewrite IH. destruct r; [|reflexivity].
  apply char_in_crlf_false in Hc. now rewrite Hc.
Qed.

Lemma rstrip_plain_LF s : plain s -> rstrip crlf (s ++ [LF]) = s.
Proof.
  induction 1 as [|c r Hc _ IH]; [reflexivity|].
  cbn [app rstrip]. rewrite IH. destruct r; [|reflexivity].
  apply char_in_crlf_false in Hc. now rewrite Hc.
Qed.

Lemma universal_newlines_plain s rest :
  plain s -> universal_newlines (s ++ rest) = s ++ universal_newlines rest.
Proof.
  induction 1 as [|c r Hc _ IH]; [reflexivity|].
  cbn [app universal_newlines]. rewrite (eqb_CR_plain c Hc). now rewrite IH.
Qed.

Lemma universal_newlines_id s : plain s -> universal_newlines s = s.
Proof.
  intros Hs. rewrite <- (app_nil_r s) at 1.
  rewrite (universal_newlines_plain s [] Hs). apply app_nil_r.
Qed.

Lemma universal_newlines_LF rest :
  universal_newlines (LF :: rest) = LF :: universal_newlines rest.
Proof. reflexivity. Qed.

Lemma universal_newlines_CRLF rest :
  universal_newlines (CR :: LF :: rest) = LF :: universal_newlines rest.
Proof. reflexivity. Qed.

Lemma readline_plain_LF s rest :
  plain s -> readline (s ++ LF :: rest) = (s ++ [LF], rest).
Proof.
  induction 1 as [|c r Hc _ IH]; [reflexivity|].
  cbn [app readline]. rewrite (eqb_LF_plain c Hc). now rewrite IH.
Qed.

Lemma readline_plain s : plain s -> readline s = (s, []).
Proof.
  induction 1 as [|c r Hc _ IH]; [reflexivity|].
  cbn [readline]. rewrite (eqb_LF_plain c Hc). now rewrite IH.
Qed.

Lemma iter_lines_unfold buf :
  iter_lines buf =
  match buf with
  | [] => []
  | _ => fst (readline buf) :: iter_lines (snd (readline buf))
  end.
Proof. destruct buf; now simp iter_lines. Qed.

Lemma iter_lines_plain_LF s rest :
  plain s -> iter_lines (s ++ LF :: rest) = (s ++ [LF]) :: iter_lines rest.
Proof.
  intros Hs. rewrite iter_lines_unfold, (readline_plain_LF s rest Hs).
  now destruct s.
Qed.

Lemma iter_lines_plain s :
  plain s -> s <> [] -> iter_lines s = [s].
Proof.
  intros Hs Hne. rewrite iter_lines_unfold, (readline_plain s Hs).
  destruct s; [congruence|]. simpl. now simp iter_lines.
Qed.

Lemma file_lines_terminated ls p :
  Forall plain ls -> plain p ->
  file_lines (terminated ls ++ p) =
  map (fun l => l ++ [LF]) ls ++ (if p is [] then [] else [p]).
Proof.
  unfold file_lines, terminated. intros Hls Hp.
  induction Hls as [|l ls Hl _ IH]; simpl.
  - rewrite (universal_newlines_id p Hp).
    destruct p; [now simp iter_lines|].
    now apply iter_lines_plain.
  - rewrite <- !app_assoc. rewrite (universal_newlines_plain l _ Hl).
    cbn [app]. rewrite universal_newlines_LF.
    rewrite (iter_lines_plain_LF l _ Hl). now rewrite IH.
Qed.

Lemma events_terminated ls p :
  Forall plain ls -> plain p ->
  events (terminated ls ++ p) = ls ++ (if p is [] then [] else [p]).
Proof.
  intros Hls Hp. unfold events. rewrite (file_lines_terminated ls p Hls Hp).
  rewrite map_app, map_map. f_equal.
  - induction Hls as [|l ls Hl _ IH]; [reflexivity|].
    cbn [map]. now rewrite (rstrip_plain_LF l Hl), IH.
  - destruct p; [reflexivity|]. cbn [map]. now rewrite (rstrip_plain _ Hp).
Qed.


End TextFacts.

(* ===================================================================== *)
(** ** Dispatch                                                           *)
(* ===================================================================== *)

(** Unfolds the monadic plumbing. *)
Ltac unfold_m :=
  cbv [mbind mret M_bind M_ret bind ret get modify raise update_reader
       the_reader lookup_window run_safely message_error].

Section Dispatch.

Lemma run_command_resolve cmd w :
  run_command cmd w =
  match resolve_target (env w) with
  | Return id => (Return tt, set_out (add_run id cmd) w)
  | Raise x => (Raise x, w)
  end.
Proof.
  unfold run_command, resolve_target. unfold_m.
  destruct (String.eqb (win_mode (env w)) "last-focused");
    [destruct (objreg (env w)); reflexivity|].
  destruct (String.eqb (win_mode (env w)) "last-opened");
    [destruct (objreg (env w)); reflexivity|].
  destruct (String.eqb (win_mode (env w)) "last-visible");
    [destruct (objreg (env w)); reflexivity|].
  reflexivity.
Qed.

Lemma resolve_unrecognized e :
  ~ recognized (win_mode e) -> resolve_target e = Raise UnboundLocalError.
Proof.
  intros Hn. unfold resolve_target, recognized in *.
  destruct (String.eqb_spec (win_mode e) "last-focused"); [tauto|].
  destruct (String.eqb_spec (win_mode e) "last-opened"); [tauto|].
  destruct (String.eqb_spec (win_mode e) "last-visible"); [tauto|].
  reflexivity.
Qed.

Lemma call_slot_log line w :
  call_slot log_debug line w = (Return tt, set_out (add_debug line) w).
Proof. reflexivity. Qed.

Lemma call_slot_run line w :
  call_slot run_command_slot line w =
  (Return tt,
   match resolve_target (env w) with
   | Return id => set_out (add_run id line) w
   | Raise x => set_out (add_unhandled x) w
   end).
Proof.
  unfold call_slot. rewrite run_command_resolve.
  destruct (resolve_target (env w)); reflexivity.
Qed.

(** Whatever is connected, an emission returns and touches [out] only,
    and never its [errors]. *)
Lemma call_slot_out s line w :
  exists o, call_slot s line w = (Return tt, set_out (fun _ => o) w)
            /\ errors o = errors (out w).
Proof.
  destruct s.
  - rewrite call_slot_log. eexists. split; reflexivity.
  - rewrite call_slot_run. destruct (resolve_target (env w)); eexists;
      split; reflexivity.
Qed.

Lemma for_each_call_slot_out slots line w :
  exists o, for_each slots (fun s => call_slot s line) w
            = (Return tt, set_out (fun _ => o) w)
            /\ errors o = errors (out w).
Proof.
  revert w. induction slots as [|s slots IH]; intros w.
  - exists (out w). now destruct w.
  - cbn [for_each]. unfold bind at 1.
    destruct (call_slot_out s line w) as (o1 & -> & E1).
    destruct (IH (set_out (fun _ => o1) w)) as (o2 & -> & E2).
    exists o2. split; [reflexivity|]. now rewrite E2.
Qed.

Lemma emit_out line w r :
  reader w = Some r ->
  exists o, emit line w = (Return tt, set_out (fun _ => o) w)
            /\ errors o = errors (out w).
Proof.
  intros Hr. unfold emit. unfold_m. rewrite Hr.
  apply for_each_call_slot_out.
Qed.

Lemma for_each_emit_out (f : str -> str) lines w r :
  reader w = Some r ->
  exists o, for_each lines (fun l => emit (f l)) w
            = (Return tt, set_out (fun _ => o) w)
            /\ errors o = errors (out w).
Proof.
  intros Hr. revert w Hr. induction lines as [|l lines IH]; intros w Hr.
  - exists (out w). now destruct w.
  - cbn [for_each]. unfold bind at 1.
    destruct (emit_out (f l) w r Hr) as (o1 & -> & E1).
    destruct (IH (set_out (fun _ => o1) w) Hr) as (o2 & -> & E2).
    exists o2. split; [reflexivity|]. now rewrite E2.
Qed.

(** With the wiring of [init], an emission is [deliver1]. *)
Lemma emit_wired line w r :
  reader w = Some r -> got_line r = [log_debug; run_command_slot] ->
  emit line w = (Return tt, set_out (fun o => deliver1 (env w) o line) w).
Proof.
  intros Hr Hs. unfold emit. unfold_m. rewrite Hr, Hs.
  cbn [for_each]. unfold bind. rewrite call_slot_log, call_slot_run.
  unfold deliver1. cbn [env set_out].
  destruct (resolve_target (env w)); reflexivity.
Qed.

Lemma for_each_emit_wired lines w r :
  reader w = Some r -> got_line r = [log_debug; run_command_slot] ->
  for_each lines emit w
  = (Return tt, set_out (deliver (env w) lines) w).
Proof.
  intros Hr Hs. revert w Hr. induction lines as [|l lines IH]; intros w Hr.
  - now destruct w.
  - cbn [for_each]. unfold bind at 1. rewrite (emit_wired l w r Hr Hs).
    rewrite IH by exact Hr. reflexivity.
Qed.

Lemma for_each_map {A B} (f : A -> B) (body : B -> M world unit) xs :
  for_each xs (fun x => body (f x)) = for_each (map f xs) body.
Proof.
  induction xs as [|x xs IH]; [reflexivity|].
  cbn [for_each map]. now rewrite IH.
Qed.

Lemma deliver_app e l1 l2 o :
  deliver e (l1 ++ l2) o = deliver e l2 (deliver e l1 o).
Proof. apply fold_left_app. Qed.

Lemma deliver_nil e o : deliver e [] o = o.
Proof. reflexivity. Qed.

(** With a window to run in, the lines are run in order, one run each. *)
Lemma deliver_commands e id lines o :
  resolve_target e = Return id ->
  commands_run (deliver e lines o)
  = commands_run o ++ map (fun l => (id, l)) lines
  /\ debug_log (deliver e lines o) = debug_log o ++ lines
  /\ errors (deliver e lines o) = errors o
  /\ unhandled (deliver e lines o) = unhandled o.
Proof.
  intros He. revert o. induction lines as [|l lines IH]; intros o.
  - cbn. now rewrite !app_nil_r.
  - cbn [deliver fold_left]. fold (deliver e lines (deliver1 e o l)).
    destruct (IH (deliver1 e o l)) as (-> & -> & -> & ->).
    unfold deliver1. rewrite He. cbn. now rewrite <- !app_assoc.
Qed.

(** The debug slot sees every emitted line, whatever dispatch does. *)
Lemma deliver_debug_log e lines o :
  debug_log (deliver e lines o) = debug_log o ++ lines
  /\ errors (deliver e lines o) = errors o.
Proof.
  revert o. induction lines as [|l lines IH]; intros o.
  - cbn. now rewrite app_nil_r.
  - cbn [deliver fold_left]. fold (deliver e lines (deliver1 e o l)).
    destruct (IH (deliver1 e o l)) as (-> & ->).
    unfold deliver1. destruct (resolve_target e); cbn;
      now rewrite <- app_assoc.
Qed.

(** Without a window of the configured kind nothing is run. *)
Lemma deliver_failed e x lines o :
  resolve_target e = Raise x ->
  commands_run (deliver e lines o) = commands_run o
  /\ errors (deliver e lines o) = errors o
  /\ unhandled (deliver e lines o) = unhandled o ++ repeat x (length lines).
Proof.
  intros He. revert o. induction lines as [|l lines IH]; intros o.
  - cbn. now rewrite app_nil_r.
  - cbn [deliver fold_left]. fold (deliver e lines (deliver1 e o l)).
    destruct (IH (deliver1 e o l)) as (-> & -> & ->).
    unfold deliver1. rewrite He. cbn. now rewrite <- app_assoc.
Qed.

End Dispatch.

(* ===================================================================== *)
(** ** The reader                                                         *)
(* ===================================================================== *)

Section Reader.

Lemma set_decoder_same r :
  decoder (_fifo r) = 0 -> set_decoder 0 r = r.
Proof. destruct r as [fp [fn cl dc] nt gl]. cbn. now intros ->. Qed.

Lemma text_lines_seven_bit w data :
  seven_bit data -> text_lines w 0 data = (file_lines data, false, 0).
Proof. intros H. unfold text_lines. cbn. now rewrite H. Qed.

(** The loop on a fresh decoder and 7-bit bytes, wired as by [init]. *)
Lemma emit_lines_spec w r data :
  reader w = Some r ->
  closed (_fifo r) = false ->
  decoder (_fifo r) = 0 ->
  got_line r = [log_debug; run_command_slot] ->
  pipes (os w) !! fileno (_fifo r) = Some data ->
  seven_bit data ->
  emit_lines w = (Return tt, drained w r data).
Proof.
  intros Hr Hc Hd Hs Hp H7. unfold emit_lines, iter_fifo, Os.read_available.
  unfold_m. rewrite Hr, Hc, Hp, Hd.
  rewrite (text_lines_seven_bit _ data H7). cbn.
  rewrite Hr. cbn. rewrite (set_decoder_same r Hd).
  rewrite for_each_map. fold (events data).
  rewrite (for_each_emit_wired _ _ r); [reflexivity | reflexivity | exact Hs].
Qed.

Lemma read_line_spec w r data :
  reader w = Some r ->
  closed (_fifo r) = false ->
  decoder (_fifo r) = 0 ->
  got_line r = [log_debug; run_command_slot] ->
  pipes (os w) !! fileno (_fifo r) = Some data ->
  seven_bit data ->
  read_line w = (Return tt, drained w (setEnabled true r) data).
Proof.
  intros Hr Hc Hd Hs Hp H7. unfold read_line. unfold_m. cbn. rewrite Hr. cbn.
  rewrite (emit_lines_spec _ (setEnabled false r) data);
    [reflexivity | reflexivity | exact Hc | exact Hd | exact Hs | exact Hp
    | exact H7].
Qed.



Lemma activated_spec w i data :
  seven_bit data ->
  attached w i -> pipes (os w) !! i = Some data ->
  exists r, reader w = Some r
            /\ activated w = (Return tt, drained w (setEnabled true r) data).
Proof.
  intros H7 [(r & Hr & Hi & Hc & He & Hs & Hd) Hpath] Hp.
  exists r. split; [exact Hr|].
  unfold activated. rewrite Hr, He. subst i.
  now rewrite (read_line_spec w r data Hr Hc Hd Hs Hp H7).
Qed.

Lemma chan_readable w i data e o :
  seven_bit data ->
  chan w i data e o ->
  chan (step Readable w) i [] e (deliver e (events data) o).
Proof.
  intros H7 [Ha Hp He Ho]. cbn [step].
  destruct (activated_spec w i data H7 Ha Hp) as (r & Hr & ->). cbn [snd].
  destruct Ha as [(r0 & Hr0 & Hi & Hc & Hen & Hs & Hd) Hpath].
  assert (r0 = r) as -> by congruence.
  split.
  - split.
    + exists (setEnabled true r). cbn. repeat split; assumption.
    + unfold fifo_path in *. cbn. exact Hpath.
  - cbn. subst i. apply lookup_insert_eq.
  - cbn. exact He.
  - cbn. now rewrite He, Ho.
Qed.

Lemma chan_write w i data e o x :
  chan w i data e o -> chan (step (Written x) w) i (data ++ x) e o.
Proof.
  intros [Ha Hp He Ho]. cbn [step]. unfold write.
  destruct Ha as [Hread Hpath]. rewrite Hpath, Hp. cbn [default].
  split; [split| | |].
  - exact Hread.
  - unfold fifo_path in *. cbn. exact Hpath.
  - cbn. apply lookup_insert_eq.
  - exact He.
  - exact Ho.
Qed.

Lemma events_nil : events [] = [].
Proof. unfold events, file_lines. cbn. now simp iter_lines. Qed.

Lemma chan_idle n w i e o :
  chan w i [] e o -> chan (run (repeat Readable n) w) i [] e o.
Proof.
  revert w. induction n as [|n IH]; intros w H; [exact H|].
  cbn [repeat run fold_left]. apply IH.
  apply chan_readable in H; [|reflexivity].
  now rewrite events_nil, deliver_nil in H.
Qed.

Lemma run_app a b w : run (a ++ b) w = run b (run a w).
Proof. apply fold_left_app. Qed.

Lemma run_single a w : run [a] w = step a w.
Proof. reflexivity. Qed.

(** Any positive number of readiness events drains the pipe once. *)
Lemma chan_drain n w i data e o :
  seven_bit data ->
  chan w i data e o ->
  chan (run (repeat Readable (S n)) w) i [] e (deliver e (events data) o).
Proof.
  intros H7 H.
  change (repeat Readable (S n)) with ([Readable] ++ repeat Readable n).
  rewrite run_app. apply chan_idle. cbn. now apply chan_readable.
Qed.

Lemma seven_bit_app a b : seven_bit a -> seven_bit b -> seven_bit (a ++ b).
Proof.
  unfold seven_bit, is_seven_bit. intros Ha Hb.
  now rewrite forallb_app, Ha, Hb.
Qed.

Lemma seven_bit_terminated ls p :
  Forall seven_bit ls -> seven_bit p -> seven_bit (terminated ls ++ p).
Proof.
  intros Hls Hp. unfold terminated.
  induction Hls as [|l ls Hl _ IH]; [exact Hp|].
  cbn [map concat]. rewrite <- !app_assoc.
  apply seven_bit_app; [exact Hl|]. now apply (seven_bit_app [LF]).
Qed.

End Reader.

(* ===================================================================== *)
(** ** Start-up and shutdown                                              *)
(* ===================================================================== *)

Section Lifecycle.

Lemma remove_quietly_missing w path :
  fs (os w) !! path = None -> remove_quietly path w = (Return tt, w).
Proof.
  intros H. unfold remove_quietly, try_except_OSError, Os.remove.
  now rewrite H.
Qed.

(** The removal step returns in every world, and leaves everything but
    the file system as it was. *)
Lemma remove_quietly_returns w path :
  exists f, remove_quietly path w = (Return tt, set_os (set_fs f) w).
Proof.
  unfold remove_quietly, try_except_OSError, Os.remove.
  destruct (fs (os w) !! path) as [n|] eqn:E.
  - destruct (dir_writable (os w)); cbn.
    + destruct n; cbn.
      * exists (delete path). reflexivity.
      * exists (delete path). reflexivity.
      * exists id. now destruct w as [[] ? ? ?].
    + exists id. now destruct w as [[] ? ? ?].
  - exists id. cbn. now destruct w as [[] ? ? ?].
Qed.

(** Done twice, the removal step does what it does once. *)
Lemma remove_quietly_idempotent w path :
  remove_quietly path (snd (remove_quietly path w))
  = (Return tt, snd (remove_quietly path w)).
Proof.
  unfold remove_quietly, try_except_OSError, Os.remove.
  destruct (fs (os w) !! path) as [n|] eqn:E.
  - destruct (dir_writable (os w)) eqn:Hw; cbn.
    + destruct n; cbn; rewrite ?lookup_delete_eq, ?E, ?Hw; reflexivity.
    + now rewrite E, Hw.
  - cbn. now rewrite E.
Qed.

(** The loop over an open file, however the signal is wired and whatever
    the descriptor holds: it ends normally or in [UnicodeDecodeError], and
    writes no error message. *)
Lemma emit_lines_open w r :
  reader w = Some r -> closed (_fifo r) = false ->
  exists o f st res,
    emit_lines w
    = (res,
       {| os := set_pipes f (os w); env := env w;
          reader := Some (set_decoder st r); out := o |})
    /\ errors o = errors (out w)
    /\ (res = Return tt \/ res = Raise UnicodeDecodeError).
Proof.
  intros Hr Hc. unfold emit_lines, iter_fifo, Os.read_available.
  unfold_m. rewrite Hr, Hc.
  destruct (pipes (os w) !! fileno (_fifo r)) as [data|] eqn:Hp.
  - destruct (text_lines _ (decoder (_fifo r)) data) as [[ls failed] st].
    cbn. rewrite Hr. cbn.
    match goal with
    | |- context [for_each ?l ?body ?w0] =>
        destruct (for_each_emit_out (rstrip crlf) ls w0 (set_decoder st r)
                    eq_refl) as (o & -> & Ho)
    end.
    exists o, (insert (fileno (_fifo r)) []), st.
    destruct failed; eexists; (split; [reflexivity|]); split; auto.
  - destruct (text_lines _ (decoder (_fifo r)) []) as [[ls failed] st].
    cbn. rewrite Hr. cbn.
    match goal with
    | |- context [for_each ?l ?body ?w0] =>
        destruct (for_each_emit_out (rstrip crlf) ls w0 (set_decoder st r)
                    eq_refl) as (o & -> & Ho)
    end.
    exists o, id, st.
    destruct failed; eexists;
      (split; [cbn; now destruct w as [[] ? ? ?]|]); split; auto.
Qed.

(** The drain of [cleanup] on an open file: either it closes the file, or
    the loop ends in [UnicodeDecodeError] and the file stays open. *)
Lemma reader_cleanup_open w r :
  reader w = Some r -> closed (_fifo r) = false ->
  exists o f st,
    errors o = errors (out w)
    /\ (reader_cleanup w
        = (Return tt,
           {| os := set_pipes f (os w); env := env w;
              reader := Some (close (set_decoder st (setEnabled false r)));
              out := o |})
        \/ reader_cleanup w
           = (Raise UnicodeDecodeError,
              {| os := set_pipes f (os w); env := env w;
                 reader := Some (set_decoder st (setEnabled false r));
                 out := o |})).
Proof.
  intros Hr Hc. unfold reader_cleanup. unfold_m. cbn. rewrite Hr. cbn.
  destruct (emit_lines_open (set_reader (Some (setEnabled false r)) w)
              (setEnabled false r) eq_refl Hc)
    as (o & f & st & res & -> & Ho & [-> | ->]);
    exists o, f, st; (split; [exact Ho|]); [left | right]; reflexivity.
Qed.

(** With a fresh decoder and 7-bit text in the pipe, the drain of
    [cleanup] closes the file, however the signal is wired. *)
Lemma reader_cleanup_decodable w r :
  reader w = Some r -> closed (_fifo r) = false ->
  decoder (_fifo r) = 0 ->
  (forall data,
     pipes (os w) !! fileno (_fifo r) = Some data -> seven_bit data) ->
  exists o f,
    reader_cleanup w
    = (Return tt,
       {| os := set_pipes f (os w); env := env w;
          reader := Some (close (setEnabled false r)); out := o |})
    /\ errors o = errors (out w).
Proof.
  intros Hr Hc Hd H7.
  unfold reader_cleanup, emit_lines, iter_fifo, Os.read_available.
  unfold_m. cbn. rewrite Hr. cbn. rewrite Hc, Hd. cbn.
  destruct (pipes (os w) !! fileno (_fifo r)) as [data|] eqn:Hp.
  - rewrite (text_lines_seven_bit _ data (H7 data eq_refl)). cbn.
    change (set_decoder 0 (setEnabled false r))
      with (setEnabled false (set_decoder 0 r)).
    rewrite (set_decoder_same r Hd).
    match goal with
    | |- context [for_each ?ls ?body ?w0] =>
        destruct (for_each_emit_out (rstrip crlf) ls w0 (setEnabled false r)
                    eq_refl) as (o & -> & Ho)
    end.
    exists o, (insert (fileno (_fifo r)) []). split; [reflexivity | exact Ho].
  - rewrite (text_lines_seven_bit _ [] eq_refl). cbn.
    change (set_decoder 0 (setEnabled false r))
      with (setEnabled false (set_decoder 0 r)).
    rewrite (set_decoder_same r Hd).
    match goal with
    | |- context [for_each ?ls ?body ?w0] =>
        destruct (for_each_emit_out (rstrip crlf) ls w0 (setEnabled false r)
                    eq_refl) as (o & -> & Ho)
    end.
    exists o, id. split; [|exact Ho]. cbn. now destruct w as [[] ? ? ?].
Qed.

Lemma reader_cleanup_closed w r :
  reader w = Some r -> closed (_fifo r) = true ->
  reader_cleanup w
  = (Raise ValueError, set_reader (Some (setEnabled false r)) w).
Proof.
  intros Hr Hc. unfold reader_cleanup, emit_lines, iter_fifo. unfold_m. cbn.
  rewrite Hr. cbn. now rewrite Hc.
Qed.

(** Where a first [cleanup] that returned on POSIX leaves the reader. *)
Lemma cleanup_returned w w1 :
  Os.is_posix w = true -> cleanup w = (Return tt, w1) ->
  Os.is_posix w1 = true
  /\ exists r1, reader w1 = Some r1 /\ closed (_fifo r1) = true
                /\ isEnabled (_notifier r1) = false.
Proof.
  intros Hposix. unfold cleanup. unfold_m. rewrite Hposix. cbn [negb].
  destruct (reader w) as [r|] eqn:Hr; [|discriminate].
  destruct (closed (_fifo r)) eqn:Hc.
  - rewrite (reader_cleanup_closed w r Hr Hc). discriminate.
  - destruct (reader_cleanup_open w r Hr Hc) as (o & f & st & _ & [-> | ->]);
      [|discriminate].
    match goal with
    | |- context [remove_quietly ?p ?w0] =>
        destruct (remove_quietly_returns w0 p) as (g & ->)
    end.
    intros [= <-]. split; [exact Hposix|].
    eexists. repeat split; reflexivity.
Qed.

(** A [cleanup] on POSIX with the file already closed. *)
Lemma cleanup_closed w r :
  Os.is_posix w = true -> reader w = Some r ->
  closed (_fifo r) = true -> isEnabled (_notifier r) = false ->
  cleanup w = (Raise ValueError, w).
Proof.
  intros Hposix Hr Hc He. unfold cleanup. unfold_m. rewrite Hposix.
  cbn [negb]. rewrite Hr. rewrite (reader_cleanup_closed w r Hr Hc).
  f_equal. destruct w as [o e rd ou], r as [p f [s en] g].
  cbn in *. subst. reflexivity.
Qed.

Lemma cleanup_off_posix w :
  Os.is_posix w = false -> cleanup w = (Return tt, w).
Proof. intros H. unfold cleanup. unfold_m. now rewrite H. Qed.

(** [init] never returns without a reader in the global. *)
Lemma init_returns_with_reader w w' :
  init w = (Return tt, w') -> is_Some (reader w').
Proof.
  unfold init, QtFIFOReader_init. unfold_m.
  repeat match goal with
  | |- context [match ?x with _ => _ end] => destruct x eqn:?; try discriminate
  end; intros [= <-]; cbn; eauto.
Qed.

(** On POSIX, with a writable runtime directory and nothing at the
    standard path, [init()] returns with the channel attached to a fresh,
    empty pipe. *)
Lemma init_attaches w :
  Os.is_posix w = true ->
  dir_writable (os w) = true ->
  fs (os w) !! fifo_path w = None ->
  exists w', init w = (Return tt, w')
             /\ chan w' (next_ino (os w)) [] (env w) (out w).
Proof.
  intros Hposix Hw Hpath.
  unfold init, QtFIFOReader_init, Os.path_exists, Os.mkfifo,
    Os.open_rdwr_nonblock, try_except_OSError.
  unfold_m. rewrite Hpath. cbn. rewrite Hposix. cbn.
  rewrite Hpath, Hw. cbn. unfold Os.is_posix in *. cbn. rewrite Hposix. cbn.
  unfold fifo_path in *. cbn. rewrite lookup_insert_eq.
  eexists. split; [reflexivity|]. split; cbn.
  - split.
    + eexists. repeat split; reflexivity.
    + unfold fifo_path. cbn. apply lookup_insert_eq.
  - apply lookup_insert_eq.
  - reflexivity.
  - reflexivity.
Qed.

End Lifecycle.

(* ===================================================================== *)
(** ** Properties of the channel                                          *)
(* ===================================================================== *)

(** Proves [chan] or [attached] at a concrete world by evaluation. *)
Ltac by_evaluation :=
  repeat match goal with
  | |- chan _ _ _ _ _ => split
  | |- attached _ _ => split
  | |- exists _, _ => eexists
  | |- _ /\ _ => split
  | |- _ = _ => vm_compute; reflexivity
  end.

(** Proves [plain] or [Forall plain] of literals. *)
Ltac plain_literal :=
  repeat match goal with
  | |- Forall _ _ => constructor
  | |- plain _ => cbv [plain lit list_ascii_of_string]
  | |- ~ eol _ => intros [?|?]; discriminate
  end.

(** Proves [seven_bit] or [Forall seven_bit] of literals. *)
Ltac seven_bit_literal :=
  repeat match goal with
  | |- Forall _ _ => constructor
  | |- seven_bit _ => vm_compute; reflexivity
  end.

(** Proves [seven_bit] of what is put together from 7-bit parts. *)
Ltac seven_bit_parts :=
  repeat first [assumption | reflexivity | apply seven_bit_app].

(** A drain of 7-bit text on the attached channel. *)
Ltac drain := apply chan_readable; [seven_bit_parts|].

Lemma w_active_chan :
  chan w_active 0 [] (env w_active) (out w_active).
Proof. by_evaluation. Qed.

(** Claim C1.  A drain does not hold a trailing partial line back.  With
    the complete lines [ls] and a partial line [p] in the pipe, all of
    them 7-bit text that the decoder of the file takes as it is, the
    readiness callback emits every line of [ls] in order and then [p]
    itself as one more event when it is not empty, and leaves nothing in
    the pipe for later bytes to join. *)
Theorem drain_emits_partial_line w i e o ls p :
  chan w i (terminated ls ++ p) e o ->
  Forall plain ls -> plain p ->
  Forall seven_bit ls -> seven_bit p ->
  let w' := step Readable w in
  debug_log (out w') = debug_log o ++ ls ++ (if p is [] then [] else [p])
  /\ chan w' i [] e (out w').
Proof.
  intros H Hls Hp H7ls H7p w'.
  apply chan_readable in H; [|now apply seven_bit_terminated].
  fold w' in H.
  rewrite (events_terminated ls p Hls Hp) in H.
  destruct H as [Ha Hd He Ho]. split.
  - rewrite Ho. apply deliver_debug_log.
  - now split.
Qed.

Lemma drain_emits_partial_line_witness :
  debug_log (out (step Readable w_partial)) = [lit "reload"; lit "scr"]
  /\ chan (step Readable w_partial) 0 [] (env w_active)
        (out (step Readable w_partial)).
Proof.
  apply (drain_emits_partial_line w_partial 0 (env w_active) (out w_active)
           [lit "reload"] (lit "scr")).
  - by_evaluation.
  - plain_literal.
  - plain_literal.
  - seven_bit_literal.
  - seven_bit_literal.
Defined.

(** The partial line "relo" alone in the pipe is emitted by a drain. *)
Lemma partial_line_not_kept : ~ partial_line_kept [] (lit "relo").
Proof. unfold partial_line_kept. vm_compute. discriminate. Qed.

(** A line that arrives in two parts is run as two commands: with "relo"
    in the pipe at the first readiness event and "ad\n" at the second, the
    commands run are "relo" and "ad", and "reload" is never run. *)
Lemma partial_line_split_in_two :
  commands_run
    (out (run [Written (lit "relo"); Readable;
               Written (lit "ad" ++ [LF]); Readable] w_active))
  = [(7, lit "relo"); (7, lit "ad")].
Proof. vm_compute. reflexivity. Qed.

(** Claim C2.  When [os.mkfifo] fails on a path that does not exist,
    [init()] reports "Couldn't create FIFO" and goes on to build the
    reader; the [os.open] of the missing path raises, and that
    [FileNotFoundError] leaves [init()] with no reader set. *)
Theorem init_mkfifo_failure_escapes w :
  Os.is_posix w = true ->
  fs (os w) !! fifo_path w = None ->
  dir_writable (os w) = false ->
  init w = (Raise (OSError ENOENT),
            set_out (add_error (CouldntCreate (OSError EACCES))) w).
Proof.
  intros Hposix Hpath Hw.
  unfold init, QtFIFOReader_init, Os.path_exists, Os.mkfifo,
    Os.open_rdwr_nonblock, try_except_OSError.
  unfold_m. rewrite Hpath. cbn. rewrite Hposix. cbn.
  rewrite Hpath, Hw. cbn. unfold Os.is_posix in *. cbn. rewrite Hposix. cbn.
  now rewrite Hpath.
Qed.

Lemma init_mkfifo_failure_escapes_witness :
  init w_readonly
  = (Raise (OSError ENOENT),
     set_out (add_error (CouldntCreate (OSError EACCES))) w_readonly)
  /\ reader (snd (init w_readonly)) = None.
Proof.
  split; [|vm_compute; reflexivity].
  apply (init_mkfifo_failure_escapes w_readonly);
    vm_compute; reflexivity.
Defined.

(** No world lets [init()] return without a reader attached: there is no
    start in degraded mode. *)
Lemma no_degraded_start w : ~ degraded_start w.
Proof.
  intros (w' & Hinit & Hnone).
  apply init_returns_with_reader in Hinit. rewrite Hnone in Hinit.
  now destruct Hinit.
Qed.

(** Claim C3, as stated, fails: after [init()] and one [cleanup()], a
    second [cleanup()] does not return; iterating the closed file raises
    [ValueError]. *)
Lemma second_cleanup_raises : ~ second_cleanup_safe w_active.
Proof.
  intros H. specialize (H (snd (cleanup w_active))).
  assert (cleanup w_active = (Return tt, snd (cleanup w_active))) as E
    by (vm_compute; reflexivity).
  specialize (H E). vm_compute in H. discriminate H.
Qed.

(** Claim C3, amended.  A second [cleanup()] after one that returned
    releases nothing a second time: the world is left exactly as the first
    call left it (the file is not closed again, no removal is tried
    again).  On POSIX it does so by raising [ValueError] from the
    iteration over the closed file; elsewhere both calls return at once. *)
Theorem cleanup_twice w w1 :
  cleanup w = (Return tt, w1) ->
  cleanup w1 = (if Os.is_posix w then Raise ValueError else Return tt, w1).
Proof.
  intros H. destruct (Os.is_posix w) eqn:Hposix.
  - destruct (cleanup_returned w w1 Hposix H) as (Hp1 & r1 & Hr1 & Hc1 & He1).
    now apply (cleanup_closed w1 r1).
  - rewrite (cleanup_off_posix w Hposix) in H. injection H as <-.
    now apply cleanup_off_posix.
Qed.

Lemma cleanup_twice_witness :
  cleanup w_active = (Return tt, w_closed)
  /\ cleanup w_closed = (Raise ValueError, w_closed).
Proof.
  split; [vm_compute; reflexivity|].
  apply (cleanup_twice w_active w_closed). vm_compute. reflexivity.
Defined.

(** Claim C4, as stated, fails: with "last-focused" and no window, the
    failed dispatch of "reload" is not reported through [message.error]. *)
Lemma dispatch_failure_not_notified :
  ~ dropped_with_notification (no_window w_active) (lit "reload").
Proof. intros [_ H]. apply H. vm_compute. reflexivity. Qed.

(** Claim C4, amended.  With "last-focused" and no window registered,
    [run_command(cmd)] raises the registry's error to its caller and does
    nothing else: the execution capability is not invoked and no
    notification is issued.  Raised in the slot during a drain, the error
    goes to the exception hook, which the application has installed (see
    [call_slot]); the drain of 7-bit text then runs no command, reports
    no error, and leaves the channel attached with its notifier enabled
    for the commands to come. *)
Theorem dispatch_without_window w cmd :
  win_mode (env w) = "last-focused"%string ->
  objreg (env w) = None ->
  run_command cmd w = (Raise NoTargetError, w)
  /\ forall i data o,
       seven_bit data ->
       chan w i data (env w) o ->
       let w' := step Readable w in
       chan w' i [] (env w) (out w')
       /\ commands_run (out w') = commands_run o
       /\ errors (out w') = errors o
       /\ unhandled (out w')
          = unhandled o ++ repeat NoTargetError (length (events data)).
Proof.
  intros Hmode Hreg.
  assert (resolve_target (env w) = Raise NoTargetError) as Hres
    by (unfold resolve_target; now rewrite Hmode, Hreg).
  split.
  - now rewrite run_command_resolve, Hres.
  - intros i data o H7 H w'. apply chan_readable in H; [|exact H7].
    fold w' in H. destruct H as [Ha Hd He Ho].
    destruct (deliver_failed (env w) NoTargetError (events data) o Hres)
      as (Hc & Herr & Hu).
    split; [now split|]. rewrite Ho. repeat split; assumption.
Qed.

Lemma dispatch_without_window_witness :
  run_command (lit "reload") (no_window w_active)
  = (Raise NoTargetError, no_window w_active).
Proof.
  apply (dispatch_without_window (no_window w_active) (lit "reload"));
    vm_compute; reflexivity.
Defined.

(** Claim C5.  Off POSIX [cleanup()] returns at once and changes nothing,
    but [init()] makes no such check: it looks at the path, removes what
    it finds there, and fails on [os.mkfifo], which does not exist on such
    a platform; the [AttributeError] is not an [OSError] and leaves
    [init()]. *)
Theorem init_unguarded_off_posix w :
  Os.is_posix w = false ->
  no_op cleanup w /\ fst (init w) = Raise AttributeError.
Proof.
  intros Hposix. split; [now apply cleanup_off_posix|].
  unfold init, Os.path_exists, Os.remove, Os.mkfifo, try_except_OSError.
  unfold_m. cbn.
  destruct (fs (os w) !! fifo_path w) as [n|] eqn:E; cbn.
  - rewrite E. destruct (dir_writable (os w)); cbn.
    + destruct n; cbn; unfold Os.is_posix in *; cbn; now rewrite Hposix.
    + unfold Os.is_posix in *; cbn; now rewrite Hposix.
  - now rewrite Hposix.
Qed.

Lemma init_unguarded_off_posix_witness :
  no_op cleanup w_nt /\ fst (init w_nt) = Raise AttributeError.
Proof. apply (init_unguarded_off_posix w_nt). vm_compute. reflexivity. Defined.

(** On "nt" with a file at the standard path, [init()] is no no-op: it
    has removed the file when it fails. *)
Lemma init_off_posix_removes_file :
  fs (os w_nt) !! fifo_path w_nt = Some (Regular 0)
  /\ fs (os (snd (init w_nt))) !! fifo_path w_nt = None
  /\ ~ no_op init w_nt.
Proof.
  split; [vm_compute; reflexivity|]. split; [vm_compute; reflexivity|].
  unfold no_op. vm_compute. discriminate.
Qed.

(** Claim C6.  "reload\n" and then "scroll down\r\n" written to the pipe
    give exactly two commands, "reload" and "scroll down", in that order,
    run in the window the setting selects, wherever the readiness events
    fall between the writes. *)
Theorem reload_then_scroll_down w i e o id a b c :
  chan w i [] e o ->
  resolve_target e = Return id ->
  let w' := run (repeat Readable a
                 ++ [Written (lit "reload" ++ [LF])]
                 ++ repeat Readable b
                 ++ [Written (lit "scroll down" ++ [CR; LF])]
                 ++ repeat Readable (S c)) w in
  commands_run (out w')
  = commands_run o ++ [(id, lit "reload"); (id, lit "scroll down")]
  /\ debug_log (out w') = debug_log o ++ [lit "reload"; lit "scroll down"]
  /\ chan w' i [] e (out w').
Proof.
  intros H Hres w'. subst w'. rewrite !run_app.
  apply (chan_idle a) in H.
  apply (chan_write _ _ _ _ _ (lit "reload" ++ [LF])) in H.
  rewrite !run_single.
  set (w1 := step (Written (lit "reload" ++ [LF])) (run (repeat Readable a) w))
    in *.
  assert (exists d o1,
            seven_bit d
            /\ chan (run (repeat Readable b) w1) i d e o1
            /\ deliver e (events (d ++ lit "scroll down" ++ [CR; LF])) o1
               = deliver e [lit "reload"; lit "scroll down"] o)
    as (d & o1 & H7 & H1 & Hdel).
  { destruct b as [|b].
    - exists ([] ++ lit "reload" ++ [LF]), o. split; [reflexivity|].
      split; [exact H|]. now f_equal.
    - exists [], (deliver e (events ([] ++ lit "reload" ++ [LF])) o).
      split; [reflexivity|].
      split; [apply chan_drain; [reflexivity | exact H]|].
      change (events ([] ++ lit "reload" ++ [LF])) with (events (lit "reload" ++ [LF])).
      replace (events (lit "reload" ++ [LF])) with [lit "reload"]
        by (vm_compute; reflexivity).
      replace (events ([] ++ lit "scroll down" ++ [CR; LF]))
        with [lit "scroll down"] by (vm_compute; reflexivity).
      reflexivity. }
  apply (chan_write _ _ _ _ _ (lit "scroll down" ++ [CR; LF])) in H1.
  apply (chan_drain c) in H1; [|now apply seven_bit_app].
  rewrite Hdel in H1.
  destruct H1 as [Ha Hd He Ho].
  destruct (deliver_commands e id [lit "reload"; lit "scroll down"] o Hres)
    as (Hc & Hl & _).
  split; [|split].
  - now rewrite Ho.
  - now rewrite Ho.
  - now split.
Qed.

Lemma reload_then_scroll_down_witness :
  commands_run
    (out (run [Written (lit "reload" ++ [LF]); Readable;
               Written (lit "scroll down" ++ [CR; LF]); Readable] w_active))
  = [(7, lit "reload"); (7, lit "scroll down")].
Proof.
  apply (reload_then_scroll_down w_active 0 (env w_active) (out w_active)
           7 0 1 0).
  - by_evaluation.
  - vm_compute. reflexivity.
Defined.

Lemma rstrip_terminators line : Forall eol line -> rstrip crlf line = [].
Proof.
  induction 1 as [|c r Hc _ IH]; [reflexivity|].
  cbn [rstrip]. rewrite IH. apply char_in_crlf in Hc. now rewrite Hc.
Qed.

(** Claim C7.  The single byte "\n" written to the pipe gives exactly one
    command, the empty string.  Nothing is filtered at this layer: a drain
    of 7-bit text runs one command for every line of the iteration, and a
    line made of terminators only is run as the empty command. *)
Theorem newline_alone_is_a_command w i e o id :
  chan w i [] e o ->
  resolve_target e = Return id ->
  commands_run (out (run [Written [LF]; Readable] w))
  = commands_run o ++ [(id, [])]
  /\ (forall data w0 o0,
        seven_bit data ->
        chan w0 i data e o0 ->
        commands_run (out (step Readable w0))
        = commands_run o0
          ++ map (fun line => (id, rstrip crlf line)) (file_lines data))
  /\ (forall line, Forall eol line -> rstrip crlf line = []).
Proof.
  intros H Hres. split; [|split].
  - apply (chan_write _ _ _ _ _ [LF]) in H.
    apply chan_readable in H; [|reflexivity].
    destruct H as [_ _ _ Ho]. cbn [run fold_left]. rewrite Ho.
    destruct (deliver_commands e id (events ([] ++ [LF])) o Hres) as (-> & _).
    f_equal.
  - intros data w0 o0 H7 H0. apply chan_readable in H0; [|exact H7].
    destruct H0 as [_ _ _ Ho]. rewrite Ho.
    destruct (deliver_commands e id (events data) o0 Hres) as (-> & _).
    unfold events. now rewrite map_map.
  - apply rstrip_terminators.
Qed.

Lemma newline_alone_is_a_command_witness :
  commands_run (out (run [Written [LF]; Readable] w_active)) = [(7, [])].
Proof.
  apply (newline_alone_is_a_command w_active 0 (env w_active)
           (out w_active) 7).
  - by_evaluation.
  - vm_compute. reflexivity.
Defined.

(** Claim C8.  The removal at the end of [cleanup()] swallows a missing
    file: on a path that does not exist it returns and changes nothing,
    so that doing it again is the same as doing it once; a [cleanup()]
    that finds the file gone, with its reader open, the decoder fresh and
    nothing but 7-bit text left in the pipe, returns, reports no error
    and leaves the file system as it is. *)
Theorem remove_missing_is_silent w path :
  fs (os w) !! path = None ->
  remove_quietly path w = (Return tt, w)
  /\ remove_quietly path (snd (remove_quietly path w))
     = (Return tt, snd (remove_quietly path w))
  /\ (forall r,
        path = fifo_path w -> Os.is_posix w = true ->
        reader w = Some r -> closed (_fifo r) = false ->
        decoder (_fifo r) = 0 ->
        (forall data,
           pipes (os w) !! fileno (_fifo r) = Some data -> seven_bit data) ->
        exists w', cleanup w = (Return tt, w')
                   /\ errors (out w') = errors (out w)
                   /\ fs (os w') = fs (os w)).
Proof.
  intros Hmiss. split; [now apply remove_quietly_missing|].
  split; [apply remove_quietly_idempotent|].
  intros r -> Hposix Hr Hc Hd H7. unfold cleanup. unfold_m.
  rewrite Hposix. cbn [negb]. rewrite Hr.
  destruct (reader_cleanup_decodable w r Hr Hc Hd H7) as (o & f & -> & Ho).
  rewrite remove_quietly_missing by exact Hmiss.
  eexists. split; [reflexivity|]. split; [exact Ho | reflexivity].
Qed.

Lemma remove_missing_is_silent_witness :
  fs (os w_closed) !! fifo_path w_closed = None
  /\ remove_quietly (fifo_path w_closed) w_closed = (Return tt, w_closed).
Proof.
  split; [vm_compute; reflexivity|].
  apply (remove_missing_is_silent w_closed (fifo_path w_closed)).
  vm_compute. reflexivity.
Defined.

(** Claim C9.  With a setting that is none of "last-focused",
    "last-opened" and "last-visible", [run_command(cmd)] fails for every
    command: [window] is read unbound, which raises [UnboundLocalError],
    and nothing else happens; the execution capability is not invoked. *)
Theorem run_command_unrecognized_mode w cmd :
  ~ recognized (win_mode (env w)) ->
  run_command cmd w = (Raise UnboundLocalError, w)
  /\ commands_run (out (snd (run_command cmd w))) = commands_run (out w).
Proof.
  intros Hn. rewrite run_command_resolve.
  rewrite (resolve_unrecognized _ Hn). split; reflexivity.
Qed.

Lemma run_command_unrecognized_mode_witness :
  run_command (lit "reload") w_odd_mode = (Raise UnboundLocalError, w_odd_mode)
  /\ commands_run (out (snd (run_command (lit "reload") w_odd_mode)))
     = commands_run (out w_odd_mode).
Proof.
  apply (run_command_unrecognized_mode w_odd_mode (lit "reload")).
  intros [H|[H|H]]; vm_compute in H; discriminate H.
Defined.



(* ===================================================================== *)
(** ** Further properties: start-up                                       *)
(* ===================================================================== *)

(** How [stable] goes through the monad. *)
Section Stable.
Context (R : relation world) `{!Reflexive R, !Transitive R}.

Lemma stable_ret {A} (a : A) : stable R (mret a).
Proof. intros w. cbn. reflexivity. Qed.

Lemma stable_raise {A} e : stable R (raise (A:=A) e).
Proof. intros w. cbn. reflexivity. Qed.

Lemma stable_get : stable R get.
Proof. intros w. cbn. reflexivity. Qed.

Lemma stable_bind {A B} (m : M world A) (k : A -> M world B) :
  stable R m -> (forall a, stable R (k a)) -> stable R (m ≫= k).
Proof.
  intros Hm Hk w. unfold mbind, M_bind, bind. specialize (Hm w).
  destruct (m w) as [[a|e] w1]; cbn in *; [|exact Hm].
  etransitivity; [exact Hm | apply Hk].
Qed.

Lemma stable_try {A} (body : M world A) handler :
  stable R body -> (forall e, stable R (handler e)) ->
  stable R (try_except_OSError body handler).
Proof.
  intros Hb Hh w. unfold try_except_OSError. specialize (Hb w).
  destruct (body w) as [[a|e] w1]; cbn in *; [exact Hb|].
  destruct (is_OSError e); [|exact Hb].
  etransitivity; [exact Hb | apply Hh].
Qed.

Lemma stable_if {A} (b : bool) (m1 m2 : M world A) :
  stable R m1 -> stable R m2 -> stable R (if b then m1 else m2).
Proof. now destruct b. Qed.

Lemma stable_for_each {A} (xs : list A) body :
  (forall x, stable R (body x)) -> stable R (for_each xs body).
Proof.
  intros Hb. induction xs as [|x xs IH]; cbn [for_each].
  - apply stable_ret.
  - apply (stable_bind (body x)); [apply Hb | intros _; exact IH].
Qed.

Lemma stable_modify (f : world -> world) :
  (forall w, R w (f w)) -> stable R (modify f).
Proof. intros Hf w. apply Hf. Qed.

End Stable.

Section StartUp.

Lemma init_ok w :
  Os.is_posix w = true ->
  dir_writable (os w) = true ->
  fs (os w) !! fifo_path w <> Some Directory ->
  exists w',
    init w = (Return tt, w')
    /\ chan w' (next_ino (os w)) [] (env w) (out w)
    /\ fs (os w') = <[fifo_path w := Fifo (next_ino (os w))]> (fs (os w)).
Proof.
  intros Hposix Hw Hdir. unfold Os.is_posix in Hposix.
  unfold init, QtFIFOReader_init, Os.path_exists, Os.remove, Os.mkfifo,
    Os.open_rdwr_nonblock, try_except_OSError, Os.is_posix.
  unfold_m.
  destruct (fs (os w) !! fifo_path w) as [n|] eqn:Hpath; cbn.
  - rewrite Hpath, Hw. cbn.
    destruct n; [| |congruence]; cbn;
      rewrite Hposix, lookup_delete_eq, Hw; cbn;
      rewrite Hposix; cbn; unfold fifo_path; cbn;
      rewrite lookup_insert_eq;
      (eexists; split; [reflexivity|]; split;
       [ split; cbn;
         [ split;
           [ eexists; repeat split; reflexivity
           | unfold fifo_path; cbn; apply lookup_insert_eq ]
         | apply lookup_insert_eq | reflexivity | reflexivity ]
       | cbn; apply insert_delete_eq ]).
  - rewrite Hposix. cbn. rewrite Hpath, Hw. cbn.
    rewrite Hposix. cbn. unfold fifo_path. cbn. rewrite lookup_insert_eq.
    eexists. split; [reflexivity|]. split.
    + split; cbn.
      * split.
        -- eexists. repeat split; reflexivity.
        -- unfold fifo_path. cbn. apply lookup_insert_eq.
      * apply lookup_insert_eq.
      * reflexivity.
      * reflexivity.
    + reflexivity.
Qed.

(** On POSIX, in a writable runtime directory, [init()] returns whenever
    the standard path is free or holds something that can be removed (a
    stale FIFO or file): the entry is replaced by a fresh FIFO, nothing is
    reported, and the channel is attached to the new, empty pipe. *)
Theorem init_replaces_stale_entry w :
  Os.is_posix w = true ->
  dir_writable (os w) = true ->
  fs (os w) !! fifo_path w <> Some Directory ->
  exists w',
    init w = (Return tt, w')
    /\ chan w' (next_ino (os w)) [] (env w) (out w)
    /\ fs (os w') = <[fifo_path w := Fifo (next_ino (os w))]> (fs (os w)).
Proof. apply init_ok. Qed.

Lemma init_replaces_stale_entry_witness :
  exists w',
    init w_active = (Return tt, w')
    /\ chan w' 1 [] (env w_active) (out w_active)
    /\ fs (os w') = <[fifo_path w_active := Fifo 1]> (fs (os w_active)).
Proof.
  apply (init_replaces_stale_entry w_active).
  - vm_compute. reflexivity.
  - vm_compute. reflexivity.
  - vm_compute. discriminate.
Defined.

(** In a runtime directory that may not be written, a FIFO left at the
    standard path survives [init()]: both the removal and the creation
    fail and are reported, in that order, and the reader is attached to
    the pipe that was there, with whatever it still holds. *)
Theorem init_keeps_unremovable_pipe w j :
  Os.is_posix w = true ->
  dir_writable (os w) = false ->
  fs (os w) !! fifo_path w = Some (Fifo j) ->
  exists w' r,
    init w = (Return tt, w')
    /\ errors (out w')
       = errors (out w) ++ [CouldntRemove (fifo_path w) (OSError EACCES);
                            CouldntCreate (OSError EEXIST)]
    /\ reader w' = Some r
    /\ fileno (_fifo r) = j
    /\ os w' = os w
    /\ forall data, pipes (os w) !! j = Some data ->
                    chan w' j data (env w) (out w').
Proof.
  intros Hposix Hw Hpath. unfold Os.is_posix in Hposix.
  unfold init, QtFIFOReader_init, Os.path_exists, Os.remove, Os.mkfifo,
    Os.open_rdwr_nonblock, try_except_OSError, Os.is_posix.
  unfold_m. rewrite Hpath. cbn. rewrite Hpath, Hw. cbn.
  rewrite Hposix, Hpath. cbn. rewrite Hposix, Hpath. cbn.
  eexists. eexists. split; [reflexivity|]. cbn.
  split; [now rewrite <- app_assoc|].
  split; [reflexivity|]. split; [reflexivity|]. split; [reflexivity|].
  intros data Hdata. split; cbn.
  - split.
    + eexists. repeat split; reflexivity.
    + exact Hpath.
  - exact Hdata.
  - reflexivity.
  - reflexivity.
Qed.

#[local] Instance same_at_refl path : Reflexive (same_at path).
Proof. intros w. reflexivity. Qed.

#[local] Instance same_at_trans path : Transitive (same_at path).
Proof. intros a b c H1 H2. unfold same_at in *. congruence. Qed.

Lemma remove_same_at p path : path <> p -> stable (same_at path) (Os.remove p).
Proof.
  intros Hne w. unfold Os.remove, same_at.
  destruct (fs (os w) !! p) as [n|]; [|reflexivity].
  destruct (dir_writable (os w)); [|reflexivity].
  destruct n; cbn; rewrite ?lookup_delete_ne by congruence; reflexivity.
Qed.

Lemma mkfifo_same_at p path : path <> p -> stable (same_at path) (Os.mkfifo p).
Proof.
  intros Hne w. unfold Os.mkfifo, same_at.
  destruct (Os.is_posix w); [|reflexivity]. cbn.
  destruct (fs (os w) !! p) as [n|]; [reflexivity|].
  destruct (dir_writable (os w)); [|reflexivity].
  cbn. now rewrite lookup_insert_ne by congruence.
Qed.

Lemma open_same_at p path : stable (same_at path) (Os.open_rdwr_nonblock p).
Proof.
  intros w. unfold Os.open_rdwr_nonblock, same_at.
  destruct (Os.is_posix w); [|reflexivity]. cbn.
  destruct (fs (os w) !! p) as [[]|]; reflexivity.
Qed.

Lemma init_keeps_unremovable_pipe_witness :
  exists w' r,
    init w_locked = (Return tt, w')
    /\ errors (out w')
       = errors (out w_locked)
         ++ [CouldntRemove (fifo_path w_locked) (OSError EACCES);
             CouldntCreate (OSError EEXIST)]
    /\ reader w' = Some r
    /\ fileno (_fifo r) = 0
    /\ os w' = os w_locked
    /\ forall data, pipes (os w_locked) !! 0 = Some data ->
                    chan w' 0 data (env w_locked) (out w').
Proof.
  apply (init_keeps_unremovable_pipe w_locked 0); vm_compute; reflexivity.
Defined.

(** [init()] looks at no path but the standard one: whatever it does and
    however it ends, every other entry of the file system is as before. *)
Theorem init_touches_only_its_path w path :
  path <> fifo_path w ->
  fs (os (snd (init w))) !! path = fs (os w) !! path.
Proof.
  intros Hne. change (same_at path w (snd (init w))).
  assert (forall p, path <> p ->
            forall w0, same_at path w0
              (snd ((exists_ ← Os.path_exists p;
                     (if (exists_ : bool) then
                        try_except_OSError (Os.remove p)
                          (fun e => message_error (CouldntRemove p e))
                      else mret tt);;
                     try_except_OSError (Os.mkfifo p)
                       (fun e => message_error (CouldntCreate e));;
                     r ← QtFIFOReader_init p;
                     modify (set_reader (Some r));;
                     update_reader (connect log_debug);;
                     update_reader (connect run_command_slot)) w0)))
    as Hbody.
  { intros p Hp.
    apply (stable_bind (same_at path)); [intros w0; reflexivity|].
    intros b. apply (stable_bind (same_at path)).
    { apply stable_if; [|apply stable_ret; apply _].
      apply stable_try; [apply _ | now apply remove_same_at|].
      intros e w0. reflexivity. }
    intros _. apply (stable_bind (same_at path)).
    { apply stable_try; [apply _ | now apply mkfifo_same_at|].
      intros e w0. reflexivity. }
    intros _. apply (stable_bind (same_at path)).
    { unfold QtFIFOReader_init. apply (stable_bind (same_at path)).
      - apply open_same_at.
      - intros fd w0. reflexivity. }
    intros r. apply (stable_bind (same_at path)); [intros w0; reflexivity|].
    intros _. apply (stable_bind (same_at path));
      [intros w0; reflexivity | intros _ w0; reflexivity]. }
  exact (Hbody (fifo_path w) Hne w).
Qed.

Lemma init_touches_only_its_path_witness :
  fs (os (snd (init w_nt))) !! "/run/user/1000/qutebrowser/other"%string
  = fs (os w_nt) !! "/run/user/1000/qutebrowser/other"%string.
Proof.
  apply (init_touches_only_its_path w_nt). vm_compute. discriminate.
Defined.

End StartUp.

(* ===================================================================== *)
(** ** Further properties: lines and drains                               *)
(* ===================================================================== *)

Section Lines.

Lemma universal_newlines_app_LF d1 d2 :
  universal_newlines (d1 ++ LF :: d2)
  = universal_newlines (d1 ++ [LF]) ++ universal_newlines d2.
Proof.
  remember (length d1) as n eqn:Hn.
  revert d1 Hn. induction n as [n IH] using lt_wf_ind. intros d1 ->.
  destruct d1 as [|c r]; [reflexivity|].
  cbn [app universal_newlines].
  destruct (Ascii.eqb c CR).
  - destruct r as [|c' r']; [reflexivity|].
    cbn [app]. destruct (Ascii.eqb c' LF).
    + f_equal. exact (IH (length r') ltac:(cbn; lia) r' eq_refl).
    + f_equal.
      exact (IH (length (c' :: r')) ltac:(cbn; lia) (c' :: r') eq_refl).
  - cbn [app]. f_equal. exact (IH (length r) ltac:(cbn; lia) r eq_refl).
Qed.

(** Translated text that ended in "\n" still does. *)
Lemma universal_newlines_last_LF d :
  last (universal_newlines (d ++ [LF])) = Some LF.
Proof.
  remember (length d) as n eqn:Hn.
  revert d Hn. induction n as [n IH] using lt_wf_ind. intros d ->.
  destruct d as [|c r]; [reflexivity|].
  cbn [app universal_newlines].
  assert (forall (x : str) a, last x = Some LF -> last (a :: x) = Some LF)
    as Hcons.
  { intros x a Hx. destruct x; [discriminate|]. exact Hx. }
  destruct (Ascii.eqb c CR).
  - destruct r as [|c' r']; [reflexivity|].
    cbn [app]. destruct (Ascii.eqb c' LF).
    + apply Hcons. exact (IH (length r') ltac:(cbn; lia) r' eq_refl).
    + apply Hcons.
      exact (IH (length (c' :: r')) ltac:(cbn; lia) (c' :: r') eq_refl).
  - apply Hcons. exact (IH (length r) ltac:(cbn; lia) r eq_refl).
Qed.

Lemma readline_first_LF s rest :
  Forall (fun c => c <> LF) s ->
  readline (s ++ LF :: rest) = (s ++ [LF], rest).
Proof.
  induction 1 as [|c r Hc _ IH]; [reflexivity|].
  cbn [app readline]. apply Ascii.eqb_neq in Hc. now rewrite Hc, IH.
Qed.

Lemma first_LF a :
  In LF a ->
  exists s rest, a = s ++ LF :: rest /\ Forall (fun c => c <> LF) s.
Proof.
  induction a as [|c r IH]; [intros []|]. intros Hin.
  destruct (Ascii.eqb_spec c LF) as [->|Hc].
  - exists [], r. split; [reflexivity | constructor].
  - destruct Hin as [->|Hin]; [congruence|].
    destruct (IH Hin) as (s & rest & -> & Hs).
    exists (c :: s), rest. split; [reflexivity | now constructor].
Qed.

Lemma iter_lines_first_LF s rest :
  Forall (fun c => c <> LF) s ->
  iter_lines (s ++ LF :: rest) = (s ++ [LF]) :: iter_lines rest.
Proof.
  intros Hs. rewrite iter_lines_unfold, (readline_first_LF s rest Hs).
  now destruct s.
Qed.

(** Lines do not reach across a "\n" that ends what was read before. *)
Lemma iter_lines_app a b :
  a = [] \/ last a = Some LF ->
  iter_lines (a ++ b) = iter_lines a ++ iter_lines b.
Proof.
  remember (length a) as n eqn:Hn.
  revert a Hn. induction n as [n IH] using lt_wf_ind. intros a -> Ha.
  destruct Ha as [->|Ha]; [now simp iter_lines|].
  assert (In LF a) as Hin.
  { apply list_elem_of_In. apply last_Some in Ha as (l' & ->).
    apply elem_of_app. right. now left. }
  destruct (first_LF a Hin) as (s & rest & -> & Hs).
  rewrite <- app_assoc. cbn [app].
  rewrite !(iter_lines_first_LF s _ Hs). cbn [app]. f_equal.
  apply (IH (length rest)); [rewrite length_app; cbn; lia | reflexivity |].
  destruct rest as [|c rest']; [now left|]. right.
  rewrite last_app in Ha.
  change (last (LF :: c :: rest')) with (last (c :: rest')) in Ha.
  destruct (last (c :: rest')) eqn:E; [exact Ha|].
  now apply last_None in E.
Qed.

Lemma events_app_LF d d2 :
  events ((d ++ [LF]) ++ d2) = events (d ++ [LF]) ++ events d2.
Proof.
  unfold events, file_lines. rewrite <- app_assoc. cbn [app].
  rewrite universal_newlines_app_LF, iter_lines_app, map_app; [reflexivity|].
  right. apply universal_newlines_last_LF.
Qed.

Lemma events_plain_CR s : plain s -> events (s ++ [CR]) = [s].
Proof.
  intros Hs. unfold events, file_lines.
  rewrite (universal_newlines_plain s [CR] Hs).
  change (universal_newlines [CR]) with [LF].
  rewrite (iter_lines_plain_LF s [] Hs). simp iter_lines.
  cbn [map]. now rewrite (rstrip_plain_LF s Hs).
Qed.

Lemma events_plain_CRLF s : plain s -> events ((s ++ [CR]) ++ [LF]) = [s].
Proof.
  intros Hs. unfold events, file_lines. rewrite <- app_assoc.
  rewrite (universal_newlines_plain s _ Hs).
  change (universal_newlines ([CR] ++ [LF])) with [LF].
  rewrite (iter_lines_plain_LF s [] Hs). simp iter_lines.
  cbn [map]. now rewrite (rstrip_plain_LF s Hs).
Qed.

Lemma universal_newlines_CR_plain b rest :
  plain b -> b <> [] ->
  universal_newlines (CR :: b ++ rest) = LF :: b ++ universal_newlines rest.
Proof.
  intros Hb Hne. destruct b as [|c b']; [congruence|].
  assert (Ascii.eqb c LF = false) as Hc
    by (apply eqb_LF_plain; now inversion Hb).
  pose proof (universal_newlines_plain (c :: b') rest Hb) as Hu.
  cbn [app] in *. cbn [universal_newlines] in *.
  change (Ascii.eqb CR CR) with true. cbn match. rewrite Hc.
  now rewrite Hu.
Qed.

Lemma events_bare_CR a b :
  plain a -> plain b -> b <> [] ->
  events (a ++ [CR] ++ b ++ [LF]) = [a; b].
Proof.
  intros Ha Hb Hne. unfold events, file_lines.
  rewrite (universal_newlines_plain a _ Ha). cbn [app].
  rewrite (universal_newlines_CR_plain b [LF] Hb Hne).
  change (universal_newlines [LF]) with [LF].
  rewrite (iter_lines_plain_LF a _ Ha).
  rewrite (iter_lines_plain_LF b [] Hb). simp iter_lines.
  cbn [map]. now rewrite (rstrip_plain_LF a Ha), (rstrip_plain_LF _ Hb).
Qed.

(** When a write of 7-bit text ends with a newline, it makes no
    difference to what is logged and run whether the readiness callback
    runs before the next write, of 7-bit text as well, or only after it:
    no line reaches across the newline. *)
Theorem drain_between_whole_lines w i e o d d2 :
  chan w i [] e o ->
  seven_bit d -> seven_bit d2 ->
  out (run [Written (d ++ [LF]); Readable; Written d2; Readable] w)
  = out (run [Written (d ++ [LF]); Written d2; Readable] w).
Proof.
  intros H Hd Hd2.
  assert (chan (run [Written (d ++ [LF]); Readable; Written d2; Readable] w)
            i [] e
            (deliver e (events ([] ++ d2))
               (deliver e (events ([] ++ d ++ [LF])) o))) as [_ _ _ ->].
  { cbn [run fold_left]. drain. apply chan_write. drain.
    now apply chan_write. }
  assert (chan (run [Written (d ++ [LF]); Written d2; Readable] w)
            i [] e
            (deliver e (events (([] ++ d ++ [LF]) ++ d2)) o)) as [_ _ _ ->].
  { cbn [run fold_left]. drain. apply chan_write.
    now apply chan_write. }
  cbn [app]. now rewrite events_app_LF, deliver_app.
Qed.

Lemma drain_between_whole_lines_witness :
  out (run [Written (lit "reload" ++ [CR] ++ [LF]); Readable;
            Written (lit "scr"); Readable] w_active)
  = out (run [Written (lit "reload" ++ [CR] ++ [LF]);
              Written (lit "scr"); Readable] w_active).
Proof.
  apply (drain_between_whole_lines w_active 0 (env w_active) (out w_active)
           (lit "reload" ++ [CR]) (lit "scr")).
  - by_evaluation.
  - seven_bit_literal.
  - seven_bit_literal.
Defined.

(** A "\r\n" cut in two by a drain costs an empty command: when the
    callback runs between the write of a line of 7-bit text that ends in
    "\r" and the write of the "\n", the line is run and then the empty
    command; when it runs after both, the line alone is run. *)
Theorem crlf_across_drains w i e o id s :
  chan w i [] e o ->
  resolve_target e = Return id ->
  plain s -> seven_bit s ->
  commands_run
    (out (run [Written (s ++ [CR]); Readable; Written [LF]; Readable] w))
  = commands_run o ++ [(id, s); (id, [])]
  /\ commands_run
       (out (run [Written (s ++ [CR]); Written [LF]; Readable] w))
     = commands_run o ++ [(id, s)].
Proof.
  intros H Hres Hs H7. split.
  - assert (chan (run [Written (s ++ [CR]); Readable; Written [LF]; Readable]
                    w) i [] e
              (deliver e (events ([] ++ [LF]))
                 (deliver e (events ([] ++ s ++ [CR])) o))) as [_ _ _ ->].
    { cbn [run fold_left]. drain. apply chan_write. drain.
      now apply chan_write. }
    cbn [app]. rewrite (events_plain_CR s Hs), <- deliver_app.
    destruct (deliver_commands e id ([s] ++ events [LF]) o Hres) as (-> & _).
    reflexivity.
  - assert (chan (run [Written (s ++ [CR]); Written [LF]; Readable] w)
              i [] e
              (deliver e (events (([] ++ s ++ [CR]) ++ [LF])) o))
      as [_ _ _ ->].
    { cbn [run fold_left]. drain. apply chan_write.
      now apply chan_write. }
    cbn [app]. rewrite (events_plain_CRLF s Hs).
    destruct (deliver_commands e id [s] o Hres) as (-> & _).
    reflexivity.
Qed.

Lemma crlf_across_drains_witness :
  commands_run
    (out (run [Written (lit "reload" ++ [CR]); Readable;
               Written [LF]; Readable] w_active))
  = [(7, lit "reload"); (7, [])]
  /\ commands_run
       (out (run [Written (lit "reload" ++ [CR]); Written [LF]; Readable]
               w_active))
     = [(7, lit "reload")].
Proof.
  apply (crlf_across_drains w_active 0 (env w_active) (out w_active) 7
           (lit "reload")).
  - by_evaluation.
  - vm_compute. reflexivity.
  - plain_literal.
  - seven_bit_literal.
Defined.

(** A "\r" inside what was written as one line of 7-bit text ends a line
    of its own: the text before it and the text after it are run as two
    commands. *)
Theorem bare_cr_ends_a_line w i e o id a b :
  chan w i [] e o ->
  resolve_target e = Return id ->
  plain a -> plain b -> b <> [] ->
  seven_bit a -> seven_bit b ->
  commands_run (out (run [Written (a ++ [CR] ++ b ++ [LF]); Readable] w))
  = commands_run o ++ [(id, a); (id, b)].
Proof.
  intros H Hres Ha Hb Hne H7a H7b.
  assert (chan (run [Written (a ++ [CR] ++ b ++ [LF]); Readable] w) i [] e
            (deliver e (events ([] ++ a ++ [CR] ++ b ++ [LF])) o))
    as [_ _ _ ->].
  { cbn [run fold_left]. drain. now apply chan_write. }
  change ([] ++ a ++ [CR] ++ b ++ [LF]) with (a ++ [CR] ++ b ++ [LF]).
  rewrite (events_bare_CR a b Ha Hb Hne).
  destruct (deliver_commands e id [a; b] o Hres) as (-> & _).
  reflexivity.
Qed.

Lemma bare_cr_ends_a_line_witness :
  commands_run
    (out (run [Written (lit "open" ++ [CR] ++ lit "quit" ++ [LF]); Readable]
            w_active))
  = [(7, lit "open"); (7, lit "quit")].
Proof.
  apply (bare_cr_ends_a_line w_active 0 (env w_active) (out w_active) 7
           (lit "open") (lit "quit")).
  - by_evaluation.
  - vm_compute. reflexivity.
  - plain_literal.
  - plain_literal.
  - discriminate.
  - seven_bit_literal.
  - seven_bit_literal.
Defined.

(** A readiness event that finds the pipe empty changes nothing at all:
    no line is emitted and the world is the one before the event. *)
Theorem readable_on_empty_pipe w i e o :
  chan w i [] e o -> step Readable w = w.
Proof.
  intros [Ha Hp He Ho]. cbn [step].
  destruct (activated_spec w i [] eq_refl Ha Hp) as (r & Hr & ->). cbn [snd].
  destruct Ha as [(r0 & Hr0 & Hi & Hc & Hen & Hs & Hdec) _].
  assert (r0 = r) as -> by congruence.
  unfold drained. rewrite events_nil, deliver_nil.
  destruct w as [[n f dw ps ni cd] en rd ou], r as [fp ff [sk en'] gl].
  cbn in *. subst. f_equal. unfold set_pipes. cbn. f_equal.
  now apply insert_id.
Qed.

Lemma readable_on_empty_pipe_witness : step Readable w_active = w_active.
Proof.
  apply (readable_on_empty_pipe w_active 0 (env w_active) (out w_active)).
  by_evaluation.
Defined.

End Lines.

(* ===================================================================== *)
(** ** Further properties: shutdown                                       *)
(* ===================================================================== *)

Section Shutdown.




Lemma write_keeps_reader path data w :
  reader (write path data w) = reader w /\ out (write path data w) = out w.
Proof.
  unfold write. destruct (fs (os w) !! path) as [[]|]; split; reflexivity.
Qed.

Lemma disabled_run acts : forall w r,
  reader w = Some r -> isEnabled (_notifier r) = false ->
  out (run acts w) = out w /\ reader (run acts w) = Some r.
Proof.
  induction acts as [|a acts IH]; intros w r Hr Hen; [now split|].
  cbn [run fold_left]. fold (run acts (step a w)).
  assert (out (step a w) = out w /\ reader (step a w) = Some r) as [Ho Hr'].
  { destruct a as [data|]; cbn [step].
    - destruct (write_keeps_reader (fifo_path w) data w) as [-> ->].
      now split.
    - unfold activated. rewrite Hr, Hen. now split. }
  destruct (IH (step a w) r Hr' Hen) as [-> ->]. now split.
Qed.

(** After a [cleanup()] that returned on POSIX nothing is ever run again:
    whatever is written and however often the event loop looks at the
    descriptor, no line is logged, no command run, nothing reported. *)
Theorem nothing_runs_after_cleanup w w1 acts :
  Os.is_posix w = true ->
  cleanup w = (Return tt, w1) ->
  out (run acts w1) = out w1.
Proof.
  intros Hposix H.
  destruct (cleanup_returned w w1 Hposix H) as (_ & r1 & Hr1 & _ & He1).
  now destruct (disabled_run acts w1 r1 Hr1 He1).
Qed.

Lemma nothing_runs_after_cleanup_witness :
  out (run [Written (lit "reload" ++ [LF]); Readable; Readable] w_closed)
  = out w_closed.
Proof.
  apply (nothing_runs_after_cleanup w_active w_closed);
    vm_compute; reflexivity.
Defined.



(** When [init()] raises, it has not touched the global [reader] nor the
    platform. *)
Lemma init_raised w e w1 :
  init w = (Raise e, w1) ->
  reader w1 = reader w /\ os_name (os w1) = os_name (os w).
Proof.
  unfold init, QtFIFOReader_init, Os.path_exists, Os.remove, Os.mkfifo,
    Os.open_rdwr_nonblock, try_except_OSError, Os.is_posix.
  unfold_m.
  destruct (String.eqb (os_name (os w)) "posix") eqn:Hposix;
  destruct (fs (os w) !! fifo_path w) as [[j|j|]|] eqn:Hpath;
  destruct (dir_writable (os w)) eqn:Hw;
  cbn; rewrite ?Hpath, ?Hw; cbn; rewrite ?Hposix; cbn;
  rewrite ?lookup_delete_eq, ?Hpath, ?Hw; cbn; rewrite ?Hposix; cbn;
  unfold fifo_path; cbn; rewrite ?lookup_insert_eq; cbn;
  fold (fifo_path w); rewrite ?Hpath; cbn;
  intros [= <- <-]; split; reflexivity.
Qed.

(** A shutdown after a start that failed fails too: when [init()] raised
    with no reader set before, [cleanup()] on POSIX raises
    [AttributeError] on the missing reader and does nothing, so that what
    is at the standard path stays there. *)
Theorem cleanup_after_failed_init w e w1 :
  Os.is_posix w = true ->
  reader w = None ->
  init w = (Raise e, w1) ->
  cleanup w1 = (Raise AttributeError, w1).
Proof.
  intros Hposix Hr Hinit.
  destruct (init_raised w e w1 Hinit) as [Hr1 Hn].
  unfold cleanup. unfold_m. unfold Os.is_posix in *.
  rewrite Hn, Hposix. cbn [negb]. now rewrite Hr1, Hr.
Qed.

Lemma cleanup_after_failed_init_witness :
  cleanup (snd (init w_readonly))
  = (Raise AttributeError, snd (init w_readonly)).
Proof.
  apply (cleanup_after_failed_init w_readonly (OSError ENOENT));
    vm_compute; reflexivity.
Defined.

End Shutdown.

(* ===================================================================== *)
(** ** Further properties: bytes that do not decode                       *)
(* ===================================================================== *)

Section Decoding.

(** The loop when the decoder fails after the lines [ls]. *)
Lemma emit_lines_failed w r data ls st :
  reader w = Some r ->
  closed (_fifo r) = false ->
  decoder (_fifo r) = 0 ->
  got_line r = [log_debug; run_command_slot] ->
  pipes (os w) !! fileno (_fifo r) = Some data ->
  text_lines w 0 data = (ls, true, st) ->
  emit_lines w
  = (Raise UnicodeDecodeError,
     {| os := set_pipes (insert (fileno (_fifo r)) []) (os w);
        env := env w;
        reader := Some (set_decoder st r);
        out := deliver (env w) (map (rstrip crlf) ls) (out w) |}).
Proof.
  intros Hr Hc Hd Hs Hp Ht. unfold emit_lines, iter_fifo, Os.read_available.
  unfold_m. rewrite Hr, Hc, Hp, Hd.
  change (text_lines _ 0 data) with (text_lines w 0 data). rewrite Ht.
  cbn. rewrite Hr. cbn. rewrite for_each_map.
  rewrite (for_each_emit_wired _ _ (set_decoder st r));
    [reflexivity | reflexivity | exact Hs].
Qed.



(** Bytes that do not decode keep [cleanup()] from removing the FIFO.
    When the decoder fails on what is left in the pipe, the
    [UnicodeDecodeError] leaves the reader's drain before the file is
    closed and [cleanup()] before [os.remove]: the file stays open and
    the standard path stays in the file system. *)
Theorem cleanup_stopped_by_decode_error w i data e o ls st :
  chan w i data e o ->
  Os.is_posix w = true ->
  text_lines w 0 data = (ls, true, st) ->
  exists w',
    cleanup w = (Raise UnicodeDecodeError, w')
    /\ out w' = deliver e (map (rstrip crlf) ls) o
    /\ fs (os w') = fs (os w)
    /\ exists r, reader w' = Some r /\ closed (_fifo r) = false.
Proof.
  intros [[(r & Hr & Hi & Hc & Hen & Hs & Hd) Hpath] Hp He Ho] Hposix Ht.
  subst i. unfold cleanup. unfold_m. rewrite Hposix. cbn [negb]. rewrite Hr.
  unfold reader_cleanup. unfold_m. cbn. rewrite Hr. cbn.
  rewrite (emit_lines_failed _ (setEnabled false r) data ls st);
    [|reflexivity | exact Hc | exact Hd | exact Hs | exact Hp | exact Ht].
  eexists. split; [reflexivity|]. cbn. rewrite He, Ho.
  split; [reflexivity|]. split; [reflexivity|].
  eexists. split; [reflexivity | exact Hc].
Qed.

Lemma cleanup_stopped_by_decode_error_witness :
  exists w',
    cleanup w_undecodable = (Raise UnicodeDecodeError, w')
    /\ out w' = out w_active
    /\ fs (os w') = fs (os w_undecodable)
    /\ exists r, reader w' = Some r /\ closed (_fifo r) = false.
Proof.
  apply (cleanup_stopped_by_decode_error w_undecodable 0
           ([] ++ lit "reload" ++ [LF] ++ ["255"%char])
           (env w_active) (out w_active) [] 0).
  - by_evaluation.
  - vm_compute. reflexivity.
  - vm_compute. reflexivity.
Defined.

End Decoding.

(* ===================================================================== *)
(** ** Further properties: the target of a command                        *)
(* ===================================================================== *)

Section Target.

(** While windows exist, [run_command(cmd)] runs [cmd] once, in the window
    that the setting names: the last focused one for "last-focused", the
    last opened one for "last-opened", the last visible one for
    "last-visible"; it changes nothing else. *)
Theorem run_command_selects_window w cmd t :
  objreg (env w) = Some t ->
  (win_mode (env w) = "last-focused"%string ->
   run_command cmd w
   = (Return tt, set_out (add_run (win_id (focused t)) cmd) w))
  /\ (win_mode (env w) = "last-opened"%string ->
      run_command cmd w
      = (Return tt, set_out (add_run (win_id (opened t)) cmd) w))
  /\ (win_mode (env w) = "last-visible"%string ->
      run_command cmd w
      = (Return tt, set_out (add_run (win_id (visible t)) cmd) w)).
Proof.
  intros Hreg. rewrite run_command_resolve. unfold resolve_target.
  rewrite Hreg. repeat split; intros ->; reflexivity.
Qed.

Lemma run_command_selects_window_witness :
  objreg (env (with_mode "last-opened" w_active))
  = Some {| focused := {| win_id := 7 |}; opened := {| win_id := 8 |};
            visible := {| win_id := 9 |} |}
  /\ run_command (lit "reload") (with_mode "last-opened" w_active)
     = (Return tt,
        set_out (add_run 8 (lit "reload")) (with_mode "last-opened" w_active)).
Proof.
  split; [vm_compute; reflexivity|].
  apply (run_command_selects_window (with_mode "last-opened" w_active)
           (lit "reload")
           {| focused := {| win_id := 7 |}; opened := {| win_id := 8 |};
              visible := {| win_id := 9 |} |});
    vm_compute; reflexivity.
Defined.

Lemma chan_with_mode m w i d e o :
  chan w i d e o -> chan (with_mode m w) i d (env (with_mode m w)) o.
Proof.
  intros [[Hr Hpath] Hd He Ho]. split; [split| | |].
  - exact Hr.
  - exact Hpath.
  - exact Hd.
  - reflexivity.
  - exact Ho.
Qed.

Lemma events_plain_LF l : plain l -> events ([] ++ l ++ [LF]) = [l].
Proof.
  intros Hl. unfold events, file_lines. cbn [app].
  rewrite (universal_newlines_plain l [LF] Hl).
  change (universal_newlines [LF]) with [LF].
  rewrite (iter_lines_plain_LF l [] Hl). simp iter_lines.
  cbn [map]. now rewrite (rstrip_plain_LF l Hl).
Qed.

(** The setting is read when a command is run, not when the channel is
    started: a line of 7-bit text drained after the setting was changed is
    run in the window the new value names, a line drained before in the
    old one. *)
Theorem setting_read_at_dispatch w i e o m id1 id2 l1 l2 :
  chan w i [] e o ->
  plain l1 -> plain l2 ->
  seven_bit l1 -> seven_bit l2 ->
  resolve_target e = Return id1 ->
  resolve_target (env (with_mode m w)) = Return id2 ->
  commands_run
    (out (run [Written (l2 ++ [LF]); Readable]
            (with_mode m (run [Written (l1 ++ [LF]); Readable] w))))
  = commands_run o ++ [(id1, l1); (id2, l2)].
Proof.
  intros H Hl1 Hl2 H71 H72 Hres1 Hres2.
  assert (chan (run [Written (l1 ++ [LF]); Readable] w) i [] e
            (deliver e (events ([] ++ l1 ++ [LF])) o)) as H1.
  { cbn [run fold_left]. drain. now apply chan_write. }
  set (w1 := run [Written (l1 ++ [LF]); Readable] w) in *.
  assert (env (with_mode m w1) = env (with_mode m w)) as Henv.
  { destruct H as [_ _ He _], H1 as [_ _ He1 _].
    unfold with_mode, with_env. cbn [env]. now rewrite He, He1. }
  apply (chan_with_mode m) in H1. rewrite Henv in H1.
  assert (chan (run [Written (l2 ++ [LF]); Readable] (with_mode m w1)) i []
            (env (with_mode m w))
            (deliver (env (with_mode m w)) (events ([] ++ l2 ++ [LF]))
               (deliver e (events ([] ++ l1 ++ [LF])) o))) as [_ _ _ ->].
  { cbn [run fold_left]. drain. now apply chan_write. }
  rewrite (events_plain_LF l1 Hl1), (events_plain_LF l2 Hl2).
  destruct (deliver_commands (env (with_mode m w)) id2 [l2]
              (deliver e [l1] o) Hres2) as (-> & _).
  destruct (deliver_commands e id1 [l1] o Hres1) as (-> & _).
  now rewrite <- app_assoc.
Qed.

Lemma setting_read_at_dispatch_witness :
  commands_run
    (out (run [Written (lit "quit" ++ [LF]); Readable]
            (with_mode "last-visible"
               (run [Written (lit "reload" ++ [LF]); Readable] w_active))))
  = [(7, lit "reload"); (9, lit "quit")].
Proof.
  apply (setting_read_at_dispatch w_active 0 (env w_active) (out w_active)
           "last-visible" 7 9 (lit "reload") (lit "quit")).
  - by_evaluation.
  - plain_literal.
  - plain_literal.
  - seven_bit_literal.
  - seven_bit_literal.
  - vm_compute. reflexivity.
  - vm_compute. reflexivity.
Defined.

(** Every line a drain of 7-bit text emits reaches the debug log, in
    order, whether or not it can be run: the logging slot is connected
    before [run_command], and a dispatch that fails, its error handed to
    the exception hook the application has installed (see [call_slot]),
    stops neither the log nor the lines after it. *)
Theorem every_line_is_logged w i data e o :
  seven_bit data ->
  chan w i data e o ->
  debug_log (out (step Readable w)) = debug_log o ++ events data
  /\ length (commands_run (out (step Readable w)))
     + length (unhandled (out (step Readable w)))
     = length (commands_run o) + length (unhandled o)
       + length (events data).
Proof.
  intros H7 H. apply chan_readable in H; [|exact H7].
  destruct H as [_ _ _ ->].
  split; [apply deliver_debug_log|].
  destruct (resolve_target e) as [id|x] eqn:Hres.
  - destruct (deliver_commands e id (events data) o Hres)
      as (-> & _ & _ & ->).
    rewrite length_app, length_map. lia.
  - destruct (deliver_failed e x (events data) o Hres) as (-> & _ & ->).
    rewrite length_app, repeat_length. lia.
Qed.

Lemma every_line_is_logged_witness :
  debug_log (out (step Readable (no_window w_partial)))
  = [lit "reload"; lit "scr"]
  /\ length (commands_run (out (step Readable (no_window w_partial))))
     + length (unhandled (out (step Readable (no_window w_partial))))
     = 0 + 0 + 2.
Proof.
  apply (every_line_is_logged (no_window w_partial) 0
           ([] ++ lit "reload" ++ [LF] ++ lit "scr")
           (env (no_window w_active)) (out w_active)).
  - seven_bit_literal.
  - by_evaluation.
Defined.

End Target.

(* ===================================================================== *)
(** ** Further properties: temporary FIFOs                                *)
(* ===================================================================== *)

Section TempFifo.

Lemma mktemp_first_free names prefix dir w used name rest :
  names = used ++ name :: rest ->
  Forall (fun u => is_Some (fs (os w) !! Os.path_join dir (prefix +:+ u)))
    used ->
  fs (os w) !! Os.path_join dir (prefix +:+ name) = None ->
  tempfile_mktemp names prefix dir w
  = (Return (Os.path_join dir (prefix +:+ name)), w).
Proof.
  intros -> Hused Hfree. induction Hused as [|u used Hu _ IH].
  - cbn [app tempfile_mktemp]. unfold Os.path_exists. unfold_m.
    rewrite Hfree. rewrite bool_decide_eq_false_2; [reflexivity|].
    intros []. discriminate.
  - cbn [app tempfile_mktemp]. unfold Os.path_exists. unfold_m.
    rewrite bool_decide_eq_true_2 by exact Hu. exact IH.
Qed.

(** What [tempfile.mktemp] returns is free, and looking for it changes
    nothing, return or raise. *)
Lemma mktemp_outcome names prefix dir w o w1 :
  tempfile_mktemp names prefix dir w = (o, w1) ->
  w1 = w
  /\ match o with
     | Return p => fs (os w) !! p = None
     | Raise e => e = OSError EEXIST
     end.
Proof.
  induction names as [|name names IH]; cbn [tempfile_mktemp].
  - intros [= <- <-]. now split.
  - unfold Os.path_exists. unfold_m.
    destruct (bool_decide (is_Some (fs (os w) !! Os.path_join dir
                                      (prefix +:+ name)))) eqn:E.
    + exact IH.
    + intros [= <- <-]. split; [reflexivity|].
      apply bool_decide_eq_false in E.
      destruct (fs (os w) !! Os.path_join dir (prefix +:+ name)) eqn:El;
        [|reflexivity].
      exfalso. apply E. eauto.
Qed.

(** On POSIX, in a writable runtime directory, [make_temp_fifo()] returns
    the path of the first candidate name that is free, under the runtime
    directory and with the userscript prefix; it has made an empty FIFO
    there and changed nothing else, neither another path nor the standard
    reader nor what was reported. *)
Theorem make_temp_fifo_creates w used name rest :
  Os.is_posix w = true ->
  dir_writable (os w) = true ->
  Forall (fun u => is_Some (fs (os w) !! temp_path w u)) used ->
  fs (os w) !! temp_path w name = None ->
  exists w',
    make_temp_fifo (used ++ name :: rest) w = (Return (temp_path w name), w')
    /\ fs (os w')
       = <[temp_path w name := Fifo (next_ino (os w))]> (fs (os w))
    /\ pipes (os w')
       = <[next_ino (os w) := []]> (pipes (os w))
    /\ reader w' = reader w /\ out w' = out w /\ env w' = env w.
Proof.
  intros Hposix Hw Hused Hfree. unfold make_temp_fifo. unfold_m.
  rewrite (mktemp_first_free _ _ _ w used name rest eq_refl Hused Hfree).
  fold (temp_path w name). unfold Os.mkfifo. rewrite Hposix. cbn [negb].
  rewrite Hfree, Hw. cbn [negb].
  eexists. split; [reflexivity|]. repeat split.
Qed.

Lemma make_temp_fifo_creates_witness :
  exists w',
    make_temp_fifo (["fifo-a"; "fifo-b"]%string) w_active
    = (Return (temp_path w_active "fifo-a"), w')
    /\ fs (os w')
       = <[temp_path w_active "fifo-a" := Fifo (next_ino (os w_active))]>
           (fs (os w_active))
    /\ pipes (os w')
       = <[next_ino (os w_active) := []]> (pipes (os w_active))
    /\ reader w' = reader w_active /\ out w' = out w_active
    /\ env w' = env w_active.
Proof.
  apply (make_temp_fifo_creates w_active [] "fifo-a" ["fifo-b"%string]).
  - vm_compute. reflexivity.
  - vm_compute. reflexivity.
  - constructor.
  - vm_compute. reflexivity.
Defined.

(** [make_temp_fifo()] catches nothing and reports nothing: when it
    raises, the world is as it was (no FIFO made, no message), and the
    exception is the [OSError] of [tempfile.mktemp] or [os.mkfifo], or the
    [AttributeError] of a platform without [os.mkfifo]. *)
Theorem make_temp_fifo_failure_changes_nothing names w e w1 :
  make_temp_fifo names w = (Raise e, w1) ->
  w1 = w
  /\ (e = OSError EEXIST \/ e = OSError EACCES \/ e = AttributeError).
Proof.
  unfold make_temp_fifo. unfold_m.
  destruct (tempfile_mktemp names "qutebrowser-userscript-"
              (runtime (env w)) w) as [[p|e0] w0] eqn:Hmk.
  - destruct (mktemp_outcome _ _ _ _ _ _ Hmk) as [-> Hfree].
    unfold Os.mkfifo. destruct (Os.is_posix w); cbn [negb].
    + rewrite Hfree. destruct (dir_writable (os w)); cbn [negb].
      * discriminate.
      * intros [= <- <-]. split; [reflexivity|]. right. now left.
    + intros [= <- <-]. split; [reflexivity|]. right. now right.
  - destruct (mktemp_outcome _ _ _ _ _ _ Hmk) as [-> ->].
    intros [= <- <-]. split; [reflexivity|]. now left.
Qed.

Lemma make_temp_fifo_failure_changes_nothing_witness :
  make_temp_fifo ["fifo-a"%string] w_locked
  = (Raise (OSError EACCES), w_locked)
  /\ (w_locked = w_locked
      /\ (OSError EACCES = OSError EEXIST \/ OSError EACCES = OSError EACCES
          \/ OSError EACCES = AttributeError)).
Proof.
  split; [vm_compute; reflexivity|].
  apply (make_temp_fifo_failure_changes_nothing ["fifo-a"%string] w_locked
           (OSError EACCES) w_locked).
  vm_compute. reflexivity.
Defined.

(** A temporary FIFO does not disturb the standard channel: when
    [make_temp_fifo()] returns, its path is not the standard path, and the
    channel is attached as before, with the same bytes waiting in its
    pipe. *)
Theorem make_temp_fifo_keeps_channel names w i data e o p w' :
  chan w i data e o ->
  i < next_ino (os w) ->
  make_temp_fifo names w = (Return p, w') ->
  p <> fifo_path w /\ chan w' i data e o.
Proof.
  intros [[Hr Hpath] Hd He Ho] Hlt. unfold make_temp_fifo. unfold_m.
  destruct (tempfile_mktemp names "qutebrowser-userscript-"
              (runtime (env w)) w) as [[p0|e0] w0] eqn:Hmk; [|discriminate].
  destruct (mktemp_outcome _ _ _ _ _ _ Hmk) as [-> Hfree].
  unfold Os.mkfifo. destruct (Os.is_posix w); cbn [negb]; [|discriminate].
  rewrite Hfree. destruct (dir_writable (os w)); cbn [negb]; [|discriminate].
  intros [= <- <-].
  assert (p0 <> fifo_path w) as Hne by (intros ->; congruence).
  split; [exact Hne|]. split; [split| | |]; cbn.
  - exact Hr.
  - unfold fifo_path in *. cbn. now rewrite lookup_insert_ne.
  - rewrite lookup_insert_ne by lia. exact Hd.
  - exact He.
  - exact Ho.
Qed.

Lemma make_temp_fifo_keeps_channel_witness :
  temp_path w_partial "fifo-a" <> fifo_path w_partial
  /\ chan (snd (make_temp_fifo ["fifo-a"%string] w_partial)) 0
       ([] ++ lit "reload" ++ [LF] ++ lit "scr") (env w_active)
       (out w_active).
Proof.
  apply (make_temp_fifo_keeps_channel ["fifo-a"%string] w_partial 0
           ([] ++ lit "reload" ++ [LF] ++ lit "scr") (env w_active)
           (out w_active)).
  - by_evaluation.
  - vm_compute. lia.
  - vm_compute. reflexivity.
Defined.

End TempFifo.
